(** * simplycli: the command registry and dispatcher of [src/simplycli/cli.py]

    A shallow embedding of the classes [Command] and [CLI].  Python objects
    live in a store: a [Command] is a cell of the heap (a list indexed by
    object identity), a [set] of commands is the list of their identities in
    iteration order, the dictionary [_command_table] is a [gmap] keyed by the
    identity of the command-like object.  Strings are ASCII strings. *)

From Stdlib Require Import String Ascii.
From stdpp Require Import gmap strings list.

Local Open Scope string_scope.
Local Open Scope nat_scope.

(** ** Strings: [str.lower] and the regular expression [\s+] *)

Module Str.

(** [str.lower] on one character (ASCII letters; other bytes are kept). *)
Definition lower_ascii (c : ascii) : ascii :=
  let n := nat_of_ascii c in
  if (65 <=? n)%nat && (n <=? 90)%nat then ascii_of_nat (n + 32) else c.

Fixpoint lower (s : string) : string :=
  match s with
  | EmptyString => EmptyString
  | String c s' => String (lower_ascii c) (lower s')
  end.

(** The characters matched by [\s] on ASCII text: TAB, LF, VT, FF, CR,
    FS, GS, RS, US and the space. *)
Definition is_space (c : ascii) : bool :=
  let n := nat_of_ascii c in
  ((9 <=? n)%nat && (n <=? 13)%nat) || ((28 <=? n)%nat && (n <=? 32)%nat).

(** [s[space.end():]] once the match has started: the run is greedy. *)
Fixpoint skip_spaces (s : string) : string :=
  match s with
  | EmptyString => EmptyString
  | String c s' => if is_space c then skip_spaces s' else s
  end.

(** [re.search(r"\s+", s)]: [None] when [s] has no white space, otherwise
    the pair [(s[:space.start()], s[space.end():])] for the leftmost run. *)
Fixpoint split_ws (s : string) : option (string * string) :=
  match s with
  | EmptyString => None
  | String c s' =>
      if is_space c then Some (EmptyString, skip_spaces s')
      else match split_ws s' with
           | Some (hd, tl) => Some (String c hd, tl)
           | None => None
           end
  end.

(** A string without any white space, and one that does not start with it. *)
Fixpoint no_space (s : string) : bool :=
  match s with
  | EmptyString => true
  | String c s' => negb (is_space c) && no_space s'
  end.

Definition starts_clean (s : string) : bool :=
  match s with
  | EmptyString => true
  | String c _ => negb (is_space c)
  end.

(** A string that [str.lower] leaves alone. *)
Definition is_lower (s : string) : bool := String.eqb (lower s) s.

End Str.

(** ** Values and command-like objects *)

(** What kind of object was handed to the registry: a function, a class
    (it has [__execute__]), an [AbstractFunctionCommandWrapper], or a bound
    method (or a builtin function): a callable that has a [__name__] and
    takes no attribute of its own. *)
Inductive Kind := KFunction | KClass | KWrapper | KMethod.

(** A command-like object.  [d_id] is the object's identity: it is what
    [is], [==] on functions and classes, and dictionary keys compare.  For
    a bound method it stands for the object and function that [==] and
    hashing compare; no command of the forest is ever registered with
    one. *)
Record Descriptor := mkDescriptor {
  d_id : nat;
  d_name : string;                 (* __name__ *)
  d_kind : Kind;
  d_description : option string    (* __description__, when it has one *)
}.

(** [inspect.isclass(command_like)] *)
Definition isclass (d : Descriptor) : bool :=
  match d_kind d with KClass => true | _ => false end.

(** [isinstance(command_like, AbstractFunctionCommandWrapper)] *)
Definition is_wrapper (d : Descriptor) : bool :=
  match d_kind d with KWrapper => true | _ => false end.

(** Whether an assignment [command_like.attr = v] goes through: it does on
    functions, classes and instances of a wrapper class; on a bound method
    it raises [AttributeError]. *)
Definition takes_attributes (d : Descriptor) : bool :=
  match d_kind d with KMethod => false | _ => true end.

(** Python values that cross the registry's interface. *)
Inductive pyval :=
| VNone
| VBool (b : bool)
| VInt (z : Z)
| VStr (s : string)
| VInstance (i : nat)          (* an instance of a command class *)
| VCommand (n : nat)           (* a [Command] object *)
| VDescriptor (d : Descriptor) (* a command-like object *).

(** The exceptions this file raises or lets through. *)
Inductive exn :=
| ValueError (msg : string)
| AttributeError (attr : string)  (* the attribute that is missing or refused *)
| KeyError
| BindError (msg : string)     (* raised by the argument matcher *)
| HandlerError (msg : string)  (* raised by a handler *).

(** Modelled from the spec: the [Arg] objects of [src/simplycli/arg.py],
    which is not part of this file, as the normalised parameter descriptors
    of the data model (origin, expected type, default, and the two
    injection markers). *)
Inductive Origin := Positional (index : nat) | Named (token : string).
Inductive ExpectedType := TString | TInteger | TFloat | TBoolean | TCommandNode.

Record ParameterSpec := mkParameterSpec {
  origin : Origin;
  expected_type : ExpectedType;
  default : option pyval;
  injects_self : bool;
  injects_command_node : bool
}.

(** ** The class [Command] *)

Record Command := mkCommand {
  command_like : Descriptor;
  is_class : bool;
  __wrapped_command__ : bool;
  name : string;
  description : option string;
  args : list ParameterSpec;
  aliases : list string;
  _aliases : list string;
  lowercase : bool;
  case_sensitive : bool;
  __subcommands__ : list nat;          (* set[Command], in iteration order *)
  _parent : option nat;
  __parent__ : option nat;             (* the attribute [add_subcommand] sets *)
  _command_like_instance : option nat
}.

(** [Command.__init__] *)
Definition Command_init (name : string) (command_like : Descriptor)
    (aliases : list string) (lowercase case_sensitive : bool)
    (args : list ParameterSpec) : Command :=
  {| command_like := command_like;
     is_class := if is_wrapper command_like then false else isclass command_like;
     __wrapped_command__ := is_wrapper command_like;
     name := name;
     description := d_description command_like;
     args := args;
     aliases := aliases;
     _aliases := name :: aliases;
     lowercase := lowercase;
     case_sensitive := case_sensitive;
     __subcommands__ := [];
     _parent := None;
     __parent__ := None;
     _command_like_instance := None |}.

(** The loop of [Command.matches] over [self._aliases]. *)
Fixpoint matches_loop (lowercase case_sensitive : bool)
    (als : list string) (cmd_name : string) : bool :=
  match als with
  | [] => false
  | alias :: rest =>
      let alias := if lowercase then Str.lower alias else alias in
      if case_sensitive && String.eqb cmd_name alias then true
      else if String.eqb (Str.lower cmd_name) alias then true
      else matches_loop lowercase case_sensitive rest cmd_name
  end.

(** [Command.matches] *)
Definition matches (self : Command) (cmd_name : string) : bool :=
  matches_loop (lowercase self) (case_sensitive self) (_aliases self) cmd_name.

(** ** The store and the [CLI] object *)

(** An instance of a command class: its attribute dictionary. *)
Abbreviation Obj := (gmap string pyval).

(** The [CLI] object with the objects it can reach.  [heap] holds the
    [Command] objects ([heap !! n] is the object with identity [n]),
    [instances] the instances of command classes, and [__boundcommand__] the
    attribute of that name on each command-like object. *)
Record CLI := mkCLI {
  heap : list Command;
  instances : list Obj;
  __boundcommand__ : gmap nat nat;
  _commands : list nat;              (* set[Command], in iteration order *)
  _command_table : gmap nat nat;     (* dict[CommandLike, Command] *)
  result : pyval
}.

(** [CLI.__init__] *)
Definition CLI_init : CLI :=
  {| heap := []; instances := []; __boundcommand__ := ∅;
     _commands := []; _command_table := ∅; result := VNone |}.

Definition with_heap (h : list Command) (st : CLI) : CLI :=
  {| heap := h; instances := instances st;
     __boundcommand__ := __boundcommand__ st; _commands := _commands st;
     _command_table := _command_table st; result := result st |}.

Definition with_instances (os : list Obj) (st : CLI) : CLI :=
  {| heap := heap st; instances := os;
     __boundcommand__ := __boundcommand__ st; _commands := _commands st;
     _command_table := _command_table st; result := result st |}.

Definition with_commands (cs : list nat) (st : CLI) : CLI :=
  {| heap := heap st; instances := instances st;
     __boundcommand__ := __boundcommand__ st; _commands := cs;
     _command_table := _command_table st; result := result st |}.

Definition with_table (t : gmap nat nat) (st : CLI) : CLI :=
  {| heap := heap st; instances := instances st;
     __boundcommand__ := __boundcommand__ st; _commands := _commands st;
     _command_table := t; result := result st |}.

Definition with_bound (t : gmap nat nat) (st : CLI) : CLI :=
  {| heap := heap st; instances := instances st;
     __boundcommand__ := t; _commands := _commands st;
     _command_table := _command_table st; result := result st |}.

Definition with_result (v : pyval) (st : CLI) : CLI :=
  {| heap := heap st; instances := instances st;
     __boundcommand__ := __boundcommand__ st; _commands := _commands st;
     _command_table := _command_table st; result := v |}.

Definition set_subcommands (l : list nat) (c : Command) : Command :=
  {| command_like := command_like c; is_class := is_class c;
     __wrapped_command__ := __wrapped_command__ c; name := name c;
     description := description c; args := args c; aliases := aliases c;
     _aliases := _aliases c; lowercase := lowercase c;
     case_sensitive := case_sensitive c; __subcommands__ := l;
     _parent := _parent c; __parent__ := __parent__ c;
     _command_like_instance := _command_like_instance c |}.

Definition set___parent__ (p : option nat) (c : Command) : Command :=
  {| command_like := command_like c; is_class := is_class c;
     __wrapped_command__ := __wrapped_command__ c; name := name c;
     description := description c; args := args c; aliases := aliases c;
     _aliases := _aliases c; lowercase := lowercase c;
     case_sensitive := case_sensitive c; __subcommands__ := __subcommands__ c;
     _parent := _parent c; __parent__ := p;
     _command_like_instance := _command_like_instance c |}.

Definition set_instance (i : option nat) (c : Command) : Command :=
  {| command_like := command_like c; is_class := is_class c;
     __wrapped_command__ := __wrapped_command__ c; name := name c;
     description := description c; args := args c; aliases := aliases c;
     _aliases := _aliases c; lowercase := lowercase c;
     case_sensitive := case_sensitive c; __subcommands__ := __subcommands__ c;
     _parent := _parent c; __parent__ := __parent__ c;
     _command_like_instance := i |}.

(** ** Outcomes and the state monad of the interpreter *)

(** A call returns, raises, or is undefined in the model: [OutOfFuel] when
    the recursion budget is spent (Python would keep recursing), [Dangling]
    when an identity has no object in the heap (impossible in Python). *)
Inductive outcome (A : Type) :=
| Ok (a : A)
| Raise (e : exn)
| OutOfFuel
| Dangling.
Arguments Ok {A} a.
Arguments Raise {A} e.
Arguments OutOfFuel {A}.
Arguments Dangling {A}.

Definition M (A : Type) : Type := CLI → outcome A * CLI.

Definition ret {A} (a : A) : M A := fun st => (Ok a, st).

Definition bind {A B} (m : M A) (k : A → M B) : M B :=
  fun st =>
    match m st with
    | (Ok a, st') => k a st'
    | (Raise e, st') => (Raise e, st')
    | (OutOfFuel, st') => (OutOfFuel, st')
    | (Dangling, st') => (Dangling, st')
    end.

Declare Scope cli_scope.
Delimit Scope cli_scope with cli.
Notation "x <- m ;; k" := (bind m (fun x => k))
  (at level 100, m at next level, right associativity) : cli_scope.
Notation "m ;; k" := (bind m (fun _ => k))
  (at level 100, right associativity) : cli_scope.
Local Open Scope cli_scope.

Definition raise {A} (e : exn) : M A := fun st => (Raise e, st).
Definition get : M CLI := fun st => (Ok st, st).
Definition modify (f : CLI → CLI) : M unit := fun st => (Ok tt, f st).

(** The result of a read-only computation, inside the monad. *)
Definition lift {A} (o : outcome A) : M A := fun st => (o, st).

(** Dereference a [Command]. *)
Definition load (n : nat) : M Command :=
  fun st => match heap st !! n with
            | Some c => (Ok c, st)
            | None => (Dangling, st)
            end.

(** Assign to the fields of the [Command] with identity [n]. *)
Definition update (n : nat) (f : Command → Command) : M unit :=
  fun st => match heap st !! n with
            | Some c => (Ok tt, with_heap (<[n := f c]> (heap st)) st)
            | None => (Dangling, st)
            end.

(** ** Python sets of objects, as lists without repetition *)

(** A set of [Command] objects hashes them by identity and iterates in an
    order the program does not control.  The list is that order; a new
    element goes to its end.  Statements that depend on the order are made
    about the order at hand. *)

Definition set_add (x : nat) (s : list nat) : list nat :=
  if decide (x ∈ s) then s else s ++ [x].

(** [s.remove(x)]: [None] stands for the [KeyError] of an absent element. *)
Definition set_remove (x : nat) (s : list nat) : option (list nat) :=
  if decide (x ∈ s) then Some (filter (λ y, y ≠ x) s) else None.

(** ** Searching the forest *)

(** What [find_command] and [find_subcommand] accept: a name or alias, or the
    command-like object a command was registered with. *)
Inductive Identifier := ByName (s : string) | ByObject (d : Descriptor).

(** [c.command_like is d], and [c.command_like == d] on functions and
    classes: the same object. *)
Definition registered_with (c : Command) (d : Descriptor) : bool :=
  Nat.eqb (d_id (command_like c)) (d_id d).

(** The test both searches apply to a command:
    [isinstance(parent, str) and c.matches(parent)], and otherwise
    [c.command_like is parent] (never true of a string). *)
Definition hits (ident : Identifier) (c : Command) : bool :=
  match ident with
  | ByName s => matches c s
  | ByObject d => registered_with c d
  end.

(** [Command.find_subcommand]: the body of the loop returns in each of its
    three branches, so only the first subcommand of the iteration is seen. *)
Fixpoint find_subcommand (fuel : nat) (h : list Command) (self : nat)
    (parent : Identifier) : outcome (option nat) :=
  match fuel with
  | O => OutOfFuel
  | S fuel' =>
      match h !! self with
      | None => Dangling
      | Some c =>
          match __subcommands__ c with
          | [] => Ok None
          | subcommand :: _ =>
              match h !! subcommand with
              | None => Dangling
              | Some sc =>
                  if hits parent sc then Ok (Some subcommand)
                  else find_subcommand fuel' h subcommand parent
              end
          end
      end
  end.

(** The loop of [CLI.find_command] over [self._commands]; falling off the
    end returns [None]. *)
Fixpoint find_command_loop (fuel : nat) (h : list Command)
    (commands : list nat) (identifier : Identifier) : outcome (option nat) :=
  match commands with
  | [] => Ok None
  | command :: rest =>
      match h !! command with
      | None => Dangling
      | Some c =>
          if hits identifier c then Ok (Some command)
          else match find_subcommand fuel h command identifier with
               | Ok (Some subcommand) => Ok (Some subcommand)
               | Ok None => find_command_loop fuel h rest identifier
               | Raise e => Raise e
               | OutOfFuel => OutOfFuel
               | Dangling => Dangling
               end
      end
  end.

(** [CLI.find_command].  The recursion budget is the number of objects in
    the heap: a descent visits one more object at each level. *)
Definition find_command (st : CLI) (identifier : Identifier)
    : outcome (option nat) :=
  find_command_loop (length (heap st)) (heap st) (_commands st) identifier.

(** ** Registration *)

(** [Command.add_subcommand]: the back reference goes to the attribute
    [__parent__]. *)
Definition add_subcommand (self subcommand : nat) : M unit :=
  update self (λ c, set_subcommands (set_add subcommand (__subcommands__ c)) c) ;;
  update subcommand (set___parent__ (Some self)).

(** [Command.get_parent]: reads [_parent]. *)
Definition get_parent (c : Command) : option nat := _parent c.

(** [CLI._register_command].  [name] and [aliases] are [None] when omitted;
    an empty [name] is falsy and gives way to [__name__] as well.  The
    assignment to [command_like.__boundcommand__] comes after the write into
    [_command_table] and raises on an object that takes no attributes.  The
    message of the [ValueError] is kept without the formatted parent. *)
Definition _register_command (command_like : Descriptor)
    (parent : option Identifier) (aliases : option (list string))
    (name : option string) (lowercase case_sensitive : bool)
    (args : list ParameterSpec) : M pyval :=
  let cmd_name := match name with
                  | Some (String c s) => String c s
                  | _ => d_name command_like
                  end in
  let aliases := match aliases with None => [] | Some l => l end in
  st <- get ;;
  let cmd := length (heap st) in
  modify (with_heap (heap st ++
    [Command_init cmd_name command_like aliases lowercase case_sensitive args])) ;;
  modify (λ st, with_table (<[d_id command_like := cmd]> (_command_table st)) st) ;;
  (if takes_attributes command_like
   then modify (λ st, with_bound (<[d_id command_like := cmd]>
                                    (__boundcommand__ st)) st)
   else raise (AttributeError "__boundcommand__")) ;;
  match parent with
  | Some parent =>
      st <- get ;;
      command_parent <- lift (find_command st parent) ;;
      match command_parent with
      | Some command_parent =>
          add_subcommand command_parent cmd ;;
          ret (VDescriptor command_like)
      | None => raise (ValueError "Parent not found")
      end
  | None =>
      modify (λ st, with_commands (set_add cmd (_commands st)) st) ;;
      ret (VDescriptor command_like)
  end.

(** [CLI.command] and [CLI.subcommand], past the decorator plumbing. *)
Definition command (command_like : Descriptor) (aliases : option (list string))
    (name : option string) (lowercase case_sensitive : bool)
    (args : list ParameterSpec) : M pyval :=
  _register_command command_like None aliases name lowercase case_sensitive args.

Definition subcommand (command_like : Descriptor) (parent : option Identifier)
    (aliases : option (list string)) (name : option string)
    (lowercase case_sensitive : bool) (args : list ParameterSpec) : M pyval :=
  match parent with
  | None => raise (ValueError "parent cannot be None")
  | Some p =>
      _register_command command_like (Some p) aliases name lowercase
        case_sensitive args
  end.

(** The list comprehension of [unregister]: the root commands registered
    with [command_like]. *)
Fixpoint matched_commands (h : list Command) (commands : list nat)
    (command_like : Descriptor) : outcome (list nat) :=
  match commands with
  | [] => Ok []
  | cmd :: rest =>
      match h !! cmd with
      | None => Dangling
      | Some c =>
          match matched_commands h rest command_like with
          | Ok l =>
              Ok (if registered_with c command_like then cmd :: l else l)
          | other => other
          end
      end
  end.

(** [for match in matched: self._commands.remove(match)] *)
Fixpoint remove_all (matched : list nat) : M unit :=
  match matched with
  | [] => ret tt
  | x :: rest =>
      st <- get ;;
      match set_remove x (_commands st) with
      | Some cs => modify (with_commands cs) ;; remove_all rest
      | None => raise KeyError
      end
  end.

(** [CLI.unregister] *)
Definition unregister (command_like : Descriptor) : M unit :=
  st <- get ;;
  matched <- lift (matched_commands (heap st) (_commands st) command_like) ;;
  remove_all matched ;;
  st <- get ;;
  match _command_table st !! d_id command_like with
  | Some table_entry =>
      entry <- load table_entry ;;
      match get_parent entry with
      | Some parent =>
          p <- load parent ;;
          match set_remove table_entry (__subcommands__ p) with
          | Some l => update parent (set_subcommands l)
          | None => raise KeyError
          end
      | None => ret tt
      end
  | None => ret tt
  end.

(** ** Dispatch: [Command.execute] and [CLI.process_input] *)

(** The first command of an iteration that [matches] the word: the loops
    [for c in ...: if c.matches(word): return ...] of [execute] and
    [process_input]. *)
Fixpoint first_matching (h : list Command) (word : string) (cs : list nat)
    : outcome (option nat) :=
  match cs with
  | [] => Ok None
  | n :: rest =>
      match h !! n with
      | None => Dangling
      | Some c => if matches c word then Ok (Some n)
                  else first_matching h word rest
      end
  end.

Section Dispatch.

(** The user's code: the zero-argument constructor of a command class, and
    the handlers.  [call_handler d true] calls [d.__execute__] on the arguments,
    [call_handler d false] calls [d] itself; a handler may change the
    instances it is given. *)
Variable construct : Descriptor → Obj.
Variable call_handler :
  Descriptor → bool → list pyval → list Obj → (pyval + exn) * list Obj.

(** The text side of the argument matcher of [src/simplycli/arg.py]
    (tokens, named and positional slots, defaults, coercion): the value
    bound to one parameter out of the raw tail, or the binding error. *)
Variable bind_text : list ParameterSpec → ParameterSpec → string → pyval + exn.

(** [Command.get_instance] *)
Definition get_instance (self : nat) : M nat :=
  c <- load self ;;
  match _command_like_instance c with
  | Some i => ret i
  | None =>
      st <- get ;;
      let i := length (instances st) in
      modify (with_instances (instances st ++ [construct (command_like c)])) ;;
      update self (set_instance (Some i)) ;;
      ret i
  end.

(** Modelled from the spec: [ArgMatcher.match_arguments] of
    [src/simplycli/arg.py], which is not part of this file.  The values
    come out in declaration order; a parameter marked [injects_self]
    receives the singleton instance of the node, one marked
    [injects_command_node] the node itself, and both bypass the text. *)
Fixpoint bind_parameters (self : nat) (all ps : list ParameterSpec)
    (raw_input : string) : M (list pyval) :=
  match ps with
  | [] => ret []
  | p :: rest =>
      v <- (if injects_self p then
              i <- get_instance self ;; ret (VInstance i)
            else if injects_command_node p then ret (VCommand self)
            else match bind_text all p raw_input with
                 | inl v => ret v
                 | inr e => raise e
                 end) ;;
      vs <- bind_parameters self all rest raw_input ;;
      ret (v :: vs)
  end.

Definition match_arguments (self : nat) (raw_input : string) : M (list pyval) :=
  c <- load self ;;
  bind_parameters self (args c) (args c) raw_input.

(** Calling into the user's code. *)
Definition call (d : Descriptor) (via_execute : bool) (args : list pyval)
    : M pyval :=
  fun st =>
    let '(r, os) := call_handler d via_execute args (instances st) in
    (match r with inl v => Ok v | inr e => Raise e end, with_instances os st).

(** The last five lines of [Command.execute]: this command is the one
    that runs, on the whole of [raw_input]. *)
Definition invoke (self : nat) (raw_input : string) : M pyval :=
  args <- match_arguments self raw_input ;;
  c <- load self ;;
  if is_class c then call (command_like c) true args
  else call (command_like c) false args.

(** [Command.execute] *)
Fixpoint execute (fuel : nat) (self : nat) (raw_input : string) : M pyval :=
  match fuel with
  | O => lift OutOfFuel
  | S fuel' =>
      c <- load self ;;
      match Str.split_ws raw_input with
      | Some (subcommand_name, sub_raw_input) =>
          st <- get ;;
          sub <- lift (first_matching (heap st) subcommand_name
                         (__subcommands__ c)) ;;
          match sub with
          | Some subcommand => execute fuel' subcommand sub_raw_input
          | None => invoke self raw_input
          end
      | None => invoke self raw_input
      end
  end.

(** [CLI.process_input].  A line that names no root command falls off the
    loop and the call returns [None]. *)
Definition process_input (raw_input : string) : M pyval :=
  let '(command_name, raw_input) :=
    match Str.split_ws raw_input with
    | None => (raw_input, EmptyString)
    | Some (hd, tl) => (hd, tl)
    end in
  st <- get ;;
  let commands := _commands st in
  cmd <- lift (first_matching (heap st) command_name commands) ;;
  match cmd with
  | Some cmd =>
      r <- execute (length (heap st)) cmd raw_input ;;
      modify (with_result r) ;;
      st <- get ;;
      ret (result st)
  | None => ret VNone
  end.

(** [CLI.process]: [line] is what [console_input()] returned. *)
Definition process (line : string) : M pyval :=
  process_input line ;; ret (VStr line).

End Dispatch.

(** ** The decorators: [complex_decorator], [CLI.command], [CLI.subcommand] *)

(** The values a caller hands to the decorators: [None], a boolean, a
    string, a list of strings, a function or class, a list of [Arg]. *)
Inductive pyarg :=
| ANone
| ABool (b : bool)
| AStr (s : string)
| AStrs (l : list string)
| AObj (d : Descriptor)
| AArgs (l : list ParameterSpec).

(** Truth value of an argument in a condition. *)
Definition truthy (v : pyarg) : bool :=
  match v with
  | ANone => false
  | ABool b => b
  | AStr s => negb (String.eqb s EmptyString)
  | AStrs l => negb (Nat.eqb (length l) 0)
  | AObj _ => true
  | AArgs l => negb (Nat.eqb (length l) 0)
  end.

(** What the calls of this layer raise: [TypeError] when Python cannot
    bind the arguments of a call or iterate over a value, and the exceptions
    of the registry, the [AttributeError] for a missing [__name__] among
    them. *)
Inductive raised :=
| TypeError
| Registry (e : exn).

(** The answer to a call at this layer.  [Unrepresented]: Python goes on
    with a value of a kind that a [Command] of this model cannot hold
    (a name that is no string, say); the model says nothing about such a
    call.  [Undefined] is [OutOfFuel] and [Dangling] of the registry. *)
Inductive reply (A : Type) :=
| Returned (a : A)
| Raised (e : raised)
| Unrepresented
| Undefined.
Arguments Returned {A} a.
Arguments Raised {A} e.
Arguments Unrepresented {A}.
Arguments Undefined {A}.

Definition D (A : Type) : Type := CLI → reply A * CLI.

Definition from_registry {A} (m : M A) : D A :=
  fun st =>
    match m st with
    | (Ok a, st') => (Returned a, st')
    | (Raise e, st') => (Raised (Registry e), st')
    | (OutOfFuel, st') => (Undefined, st')
    | (Dangling, st') => (Undefined, st')
    end.

(** [list(s)] on a string: its characters. *)
Definition chars (s : string) : list string :=
  map (λ c, String c EmptyString) (list_ascii_of_string s).

(** An argument in the place of [name], [aliases], [args] and [parent], as
    the registry of this model holds it; [None] when it cannot. *)
Definition typed_name (v : pyarg) : option (option string) :=
  if truthy v then match v with AStr s => Some (Some s) | _ => None end
  else Some None.

Definition typed_aliases (v : pyarg) : option (option (list string)) :=
  match v with
  | ANone => Some None
  | AStrs l => Some (Some l)
  | AStr s => Some (Some (chars s))
  | AArgs [] => Some (Some [])
  | _ => None
  end.

Definition typed_parent (v : pyarg) : option (option Identifier) :=
  match v with
  | ANone => Some None
  | AObj d => Some (Some (ByObject d))
  | AStr s => Some (Some (ByName s))
  | _ => None
  end.

(** Python's binding of the call [f(cli, *pos, **kw)] to the parameters of
    [f] after [self]: [None] is the [TypeError] for too many positional
    arguments, for a keyword that names no parameter, and for a parameter
    given twice; otherwise each parameter gets its argument, or [None] when
    it is left to its default. *)
Definition bind_call (params : list string) (pos : list pyarg)
    (kw : gmap string pyarg) : option (list (option pyarg)) :=
  if decide (length params < length pos) then None
  else if decide (map_Forall (λ k _, k ∈ drop (length pos) params) kw)
  then Some (imap (λ i p, match pos !! i with
                          | Some v => Some v
                          | None => kw !! p
                          end) params)
  else None.

Definition or_default (d : pyarg) (o : option pyarg) : pyarg :=
  match o with Some v => v | None => d end.

(** The closure [wrapper] of [complex_decorator], with what it captured. *)
Record Wrapper := mkWrapper {
  w_no_wrap : option bool;             (* decorator_flags.get("no_wrap") *)
  w_outer : list pyarg → gmap string pyarg → D pyval;
  w_args : list pyarg;                 (* args, without the leading cli *)
  w_executed : pyarg;
  w_kwargs : gmap string pyarg
}.

(** What a decorator call gives back: the result of the registration or
    the closure. *)
Inductive dvalue :=
| DValue (v : pyval)
| DWrapper (w : Wrapper).

(** [wrapper(f)]: the object goes in front, [executed] behind it when the
    flag [no_wrap] is set and [executed] is truthy; then [outer] is
    called. *)
Definition wrapper (w : Wrapper) (f : pyarg) : D pyval :=
  w_outer w
    (f :: (if match w_no_wrap w with Some true => truthy (w_executed w)
                                   | _ => false end
           then [w_executed w] else []) ++ w_args w)
    (w_kwargs w).

(** [real_decorator(cli, *pos, **kw)]. *)
Definition real_decorator (no_wrap : option bool)
    (outer : list pyarg → gmap string pyarg → D pyval)
    (pos : list pyarg) (kw : gmap string pyarg) : D dvalue :=
  match kw !! "cli" with
  | Some _ => fun st => (Raised TypeError, st)
  | None =>
      let executed := match pos with [] => ANone | v :: _ => v end in
      let args := match pos with [] => [] | _ :: rest => rest end in
      let w := mkWrapper no_wrap outer args executed kw in
      if truthy executed &&
         match no_wrap with Some false => true | _ => false end
      then fun st =>
             match wrapper w executed st with
             | (Returned v, st') => (Returned (DValue v), st')
             | (Raised e, st') => (Raised e, st')
             | (Unrepresented, st') => (Unrepresented, st')
             | (Undefined, st') => (Undefined, st')
             end
      else fun st => (Returned (DWrapper w), st)
  end.

Section Decorators.

(** The parameter list the argument matcher reads off the signature of a
    handler when no [args] are given ([src/simplycli/arg.py]), and the one
    it makes of a list of [Arg] that is given. *)
Variable signature : Descriptor → list ParameterSpec.
Variable given_args : Descriptor → list ParameterSpec → list ParameterSpec.

Definition typed_args (v : pyarg)
    : option (Descriptor → list ParameterSpec) :=
  match v with
  | ANone => Some signature
  | AArgs l => Some (λ d, given_args d l)
  | _ => None
  end.

(** [_register_command] on arguments of any kind: the missing [__name__],
    then [list(aliases)], then the registration itself. *)
Definition register_call (command_like : pyarg)
    (parent : option (option Identifier))
    (aliases name lowercase case_sensitive args : pyarg) : D pyval :=
  if negb (truthy name) &&
     match command_like with AObj _ => false | _ => true end
  then fun st => (Raised (Registry (AttributeError "__name__")), st)
  else match aliases with
       | ABool _ | AObj _ => fun st => (Raised TypeError, st)
       | _ =>
           match command_like, parent, typed_aliases aliases,
                 typed_name name, typed_args args with
           | AObj d, Some parent, Some als, Some nm, Some ar =>
               from_registry
                 (_register_command d parent als nm (truthy lowercase)
                    (truthy case_sensitive) (ar d))
           | _, _, _, _, _ => fun st => (Unrepresented, st)
           end
       end.

(** The call [command(cli, *pos, **kw)] of the function behind
    [CLI.command]. *)
Definition command_call (pos : list pyarg) (kw : gmap string pyarg)
    : D pyval :=
  match bind_call ["command_like"; "aliases"; "name"; "lowercase";
                   "case_sensitive"; "args"] pos kw with
  | Some [Some cl; als; nm; lc; cs; ar] =>
      register_call cl (Some None) (or_default ANone als)
        (or_default ANone nm) (or_default (ABool true) lc)
        (or_default (ABool true) cs) (or_default ANone ar)
  | _ => fun st => (Raised TypeError, st)
  end.

(** The call [subcommand(cli, *pos, **kw)] of the function behind
    [CLI.subcommand]. *)
Definition subcommand_call (pos : list pyarg) (kw : gmap string pyarg)
    : D pyval :=
  match bind_call ["command_like"; "parent"; "aliases"; "name"; "lowercase";
                   "case_sensitive"; "args"] pos kw with
  | Some [Some cl; par; als; nm; lc; cs; ar] =>
      match or_default ANone par with
      | ANone =>
          fun st => (Raised (Registry (ValueError "parent cannot be None")), st)
      | p =>
          register_call cl (typed_parent p) (or_default ANone als)
            (or_default ANone nm) (or_default (ABool true) lc)
            (or_default (ABool true) cs) (or_default ANone ar)
      end
  | _ => fun st => (Raised TypeError, st)
  end.

(** The attributes [cli.command] and [cli.subcommand]. *)
Definition cli_command : list pyarg → gmap string pyarg → D dvalue :=
  real_decorator (Some false) command_call.

Definition cli_subcommand : list pyarg → gmap string pyarg → D dvalue :=
  real_decorator (Some true) subcommand_call.

End Decorators.

(** ** [CLI.identity] *)

(** [s.split(sep)] for a separator of one character. *)
Fixpoint split_on (sep : ascii) (s : string) : list string :=
  match s with
  | EmptyString => [EmptyString]
  | String c s' =>
      if Ascii.eqb c sep then EmptyString :: split_on sep s'
      else match split_on sep s' with
           | x :: xs => String c x :: xs
           | [] => [String c EmptyString]
           end
  end.

(** [func.__qualname__.split(".")[-2]]; [None] is the [IndexError] of a
    list with fewer than two items. *)
Definition identity_parent_class (qualname : string) : option string :=
  rev (split_on "." qualname) !! 1.

(** [CLI.identity]: the closure keeps the name of the class, and looks the
    command up when it is called. *)
Definition identity_wrapper (parent_class : string) (st : CLI)
    : outcome (option nat) :=
  find_command st (ByName parent_class).

(** * Vocabulary of the statements *)

(** ** The matching rule *)

(** The alias as the loop compares it. *)
Definition folded (lc : bool) (alias : string) : string :=
  if lc then Str.lower alias else alias.

(** The matching rule as the specification words it: the alias is folded
    when [lowercase] is set; a case-sensitive command compares the word
    with it exactly, any other folds the word and compares. *)
Definition matches_as_specified (c : Command) (word : string) : bool :=
  existsb
    (λ alias,
       let alias := if lowercase c then Str.lower alias else alias in
       if case_sensitive c then String.eqb word alias
       else String.eqb (Str.lower word) alias)
    (_aliases c).

Definition d_hello : Descriptor := mkDescriptor 0 "hello" KFunction None.
Definition d_Hello : Descriptor := mkDescriptor 0 "Hello" KClass None.

(** ** Registration *)

(** The object [_register_command] creates. *)
Definition new_command (d : Descriptor) (als : option (list string))
    (nm : option string) (lc cs : bool) (a : list ParameterSpec) : Command :=
  Command_init
    (match nm with Some (String c s) => String c s | _ => d_name d end)
    d (match als with None => [] | Some l => l end) lc cs a.

(** The state once [_register_command] has stored the new object [c] and
    written it into [_command_table]... *)
Definition indexed (d : Descriptor) (c : Command) (st : CLI) : CLI :=
  with_table (<[d_id d := length (heap st)]> (_command_table st))
    (with_heap (heap st ++ [c]) st).

(** ... and into [__boundcommand__]. *)
Definition recorded (d : Descriptor) (c : Command) (st : CLI) : CLI :=
  with_bound (<[d_id d := length (heap st)]> (__boundcommand__ st))
    (with_table (<[d_id d := length (heap st)]> (_command_table st))
       (with_heap (heap st ++ [c]) st)).

(** What an operation of the registry leaves alone in a [Command]: the
    object it was registered with, the field [_parent], and the
    subcommands it already had. *)
Definition keeps (c c' : Command) : Prop :=
  command_like c' = command_like c ∧ _parent c' = _parent c ∧
  ∀ k, k ∈ __subcommands__ c → k ∈ __subcommands__ c'.

(** ** The forest and the shape of the registry *)

(** The commands of the forest: the roots, and the subcommands of a
    command of the forest. *)
Inductive reachable (h : list Command) (roots : list nat) : nat → Prop :=
| reachable_root n : n ∈ roots → reachable h roots n
| reachable_sub p c n :
    reachable h roots p → h !! p = Some c → n ∈ __subcommands__ c →
    reachable h roots n.

(** The shape of every registry the interface can build: subcommands are
    younger than their parent and live in the heap, so do the roots and the
    entries of the index, and [_parent] is [None] everywhere
    ([add_subcommand] writes [__parent__]). *)
Record well_formed (st : CLI) : Prop := {
  wf_ordered : ∀ n c, heap st !! n = Some c →
                 ∀ k, k ∈ __subcommands__ c → n < k < length (heap st);
  wf_roots : ∀ r, r ∈ _commands st → r < length (heap st);
  wf_table : ∀ k n, _command_table st !! k = Some n → n < length (heap st);
  wf_parent : ∀ n c, heap st !! n = Some c → _parent c = None
}.

(** The states of the registry: from [CLI()] by registrations,
    unregistrations and processed lines, whether the calls return or raise
    and whatever the user's code is. *)
Inductive api_state : CLI → Prop :=
| api_init : api_state CLI_init
| api_register st d parent als nm lc cs a :
    api_state st →
    api_state (snd (_register_command d parent als nm lc cs a st))
| api_unregister st d :
    api_state st → api_state (snd (unregister d st))
| api_process_input st construct call_handler bind_text raw_input :
    api_state st →
    api_state (snd (process_input construct call_handler bind_text
                      raw_input st)).

(** Two states with the same registry: the same roots and index, and in
    every [Command] the same descriptor, subcommands and parent.  The
    dispatcher changes nothing else than instances and [result]. *)
Definition same_registry (st st' : CLI) : Prop :=
  _commands st' = _commands st ∧ _command_table st' = _command_table st ∧
  length (heap st') = length (heap st) ∧
  ∀ n c', heap st' !! n = Some c' →
    ∃ c, heap st !! n = Some c ∧ command_like c' = command_like c ∧
         __subcommands__ c' = __subcommands__ c ∧ _parent c' = _parent c.

(** The four ways a registration ends on a well-formed registry. *)
Inductive registered (d : Descriptor) (parent : option Identifier)
    (c0 : Command) (st : CLI) : outcome pyval * CLI → Prop :=
| registered_sealed :
    takes_attributes d = false →
    registered d parent c0 st
      (Raise (AttributeError "__boundcommand__"), indexed d c0 st)
| registered_root :
    takes_attributes d = true → parent = None →
    registered d parent c0 st
      (Ok (VDescriptor d),
       with_commands (set_add (length (heap st)) (_commands st))
         (recorded d c0 st))
| registered_failed p :
    takes_attributes d = true →
    parent = Some p → find_command st p = Ok None →
    registered d parent c0 st
      (Raise (ValueError "Parent not found"), recorded d c0 st)
| registered_sub p cp pc :
    takes_attributes d = true →
    parent = Some p → find_command st p = Ok (Some cp) →
    heap st !! cp = Some pc →
    reachable (heap st) (_commands st) cp →
    registered d parent c0 st
      (Ok (VDescriptor d),
       with_heap
         (<[length (heap st) := set___parent__ (Some cp) c0]>
            (<[cp := set_subcommands
                       (set_add (length (heap st)) (__subcommands__ pc)) pc]>
               (heap st ++ [c0])%list))
         (recorded d c0 st)).

(** ** The invariant of the registry *)

(** A command appears in the index exactly once: under the key of the
    object it was registered with, and under no other. *)
Definition indexed_once (st : CLI) (n : nat) : Prop :=
  ∃ c, heap st !! n = Some c ∧
       ∀ k, _command_table st !! k = Some n ↔ k = d_id (command_like c).

Definition reachable_indexed (st : CLI) : Prop :=
  ∀ n, reachable (heap st) (_commands st) n → indexed_once st n.

Definition index_reachable (st : CLI) : Prop :=
  ∀ k n, _command_table st !! k = Some n →
         reachable (heap st) (_commands st) n.

Definition registry_invariant (st : CLI) : Prop :=
  reachable_indexed st ∧ index_reachable st.

(** ** Dispatch *)

(** The word [process_input] looks up among the roots. *)
Definition leading_token (raw_input : string) : string :=
  match Str.split_ws raw_input with
  | None => raw_input
  | Some (hd, _) => hd
  end.

(** None of the commands [cs] answers to the word. *)
Definition unmatched (h : list Command) (w : string) (cs : list nat) : Prop :=
  Forall (λ k, ∃ c, h !! k = Some c ∧ matches c w = false) cs.

(** The command a word picks in the set [cs]: it answers to the word, and
    none of those the iteration yields before it does. *)
Definition picks (h : list Command) (w : string) (cs : list nat)
    (sub : nat) : Prop :=
  ∃ before after sc,
    cs = (before ++ sub :: after)%list ∧ unmatched h w before ∧
    h !! sub = Some sc ∧ matches sc w = true.

(** The path a line follows below a command: at each level the word picks
    a subcommand. *)
Inductive resolves (h : list Command) : nat → list string → nat → Prop :=
| resolves_here n : resolves h n [] n
| resolves_down n c w sub ws t :
    h !! n = Some c →
    picks h w (__subcommands__ c) sub →
    resolves h sub ws t →
    resolves h n (w :: ws) t.

(** The descent ends at [t] on the tail [tl]: the tail has no white space,
    or no subcommand of [t] answers to the word in front of it. *)
Definition stops (h : list Command) (t : nat) (tl : string) : Prop :=
  ∃ c, h !! t = Some c ∧
       match Str.split_ws tl with
       | None => True
       | Some (w, _) => unmatched h w (__subcommands__ c)
       end.

(** The words of a path and the tail, one blank between them. *)
Definition line (ws : list string) (tl : string) : string :=
  fold_right (λ w s, w ++ " " ++ s)%string tl ws.

(** The call came back: with a value or with an exception. *)
Definition defined {A} (o : outcome A) : Prop :=
  match o with Ok _ | Raise _ => True | OutOfFuel | Dangling => False end.

Section BinderValues.

Variable construct : Descriptor → Obj.
Variable bind_text : list ParameterSpec → ParameterSpec → string → pyval + exn.

(** The state in which the command [n] has just built its instance. *)
Definition constructed (n : nat) (c : Command) (st : CLI) : CLI :=
  with_heap (<[n := set_instance (Some (length (instances st))) c]> (heap st))
    (with_instances (instances st ++ [construct (command_like c)]) st).

(** The values the binder produces when the instance of the command is
    [i]: it stands at every parameter marked [injects_self]. *)
Fixpoint bound_values (i self : nat) (all ps : list ParameterSpec)
    (raw_input : string) : list pyval + exn :=
  match ps with
  | [] => inl []
  | p :: rest =>
      match (if injects_self p then inl (VInstance i)
             else if injects_command_node p then inl (VCommand self)
             else bind_text all p raw_input) with
      | inr e => inr e
      | inl v =>
          match bound_values i self all rest raw_input with
          | inl vs => inl (v :: vs)
          | inr e => inr e
          end
      end
  end.

End BinderValues.

(** ** Registries and user code to run the model on *)

Definition d_math : Descriptor := mkDescriptor 0 "Math" KClass None.
Definition d_add : Descriptor := mkDescriptor 1 "add" KFunction None.
Definition d_sub : Descriptor := mkDescriptor 2 "sub" KFunction None.

(** [@cli.command class Math], then [@cli.subcommand(Math) def add] and
    [@cli.subcommand(Math) def sub]. *)
Definition cli_math : CLI :=
  snd (command d_math None None true true [] CLI_init).
Definition cli_math_add : CLI :=
  snd (subcommand d_add (Some (ByObject d_math)) None None true true [] cli_math).
Definition cli_math_add_sub : CLI :=
  snd (subcommand d_sub (Some (ByObject d_math)) None None true true []
         cli_math_add).

(** The registry of [Math], [add] and [sub] with the subcommands of [Math]
    iterated in the other order. *)
Definition cli_math_sub_add : CLI :=
  with_heap
    (alter (set_subcommands [2; 1]) 0 (heap cli_math_add_sub))
    cli_math_add_sub.

(** A command class that counts its invocations in [self.count], and
    functions that return their first argument. *)
Definition construct_counter (d : Descriptor) : Obj := {[ "count" := VInt 0 ]}.

Definition count_of (o : Obj) : Z :=
  match o !! "count" with Some (VInt z) => z | _ => 0%Z end.

Definition handler_counter (d : Descriptor) (via_execute : bool)
    (args : list pyval) (os : list Obj) : (pyval + exn) * list Obj :=
  match via_execute, args with
  | true, VInstance i :: _ =>
      match os !! i with
      | Some o =>
          let z := (count_of o + 1)%Z in
          (inl (VInt z), <[i := <["count" := VInt z]> o]> os)
      | None => (inr (HandlerError "no such instance"), os)
      end
  | _, v :: _ => (inl v, os)
  | _, [] => (inl VNone, os)
  end.

(** A text binder that hands over the raw tail as it is. *)
Definition bind_whole (all : list ParameterSpec) (p : ParameterSpec)
    (raw_input : string) : pyval + exn := inl (VStr raw_input).

Definition p_self : ParameterSpec :=
  mkParameterSpec (Positional 0) TString None true false.
Definition p_text : ParameterSpec :=
  mkParameterSpec (Positional 0) TString None false false.

(** The chain [root → a → b → c]. *)
Definition d_root : Descriptor := mkDescriptor 10 "root" KFunction None.
Definition d_a : Descriptor := mkDescriptor 11 "a" KFunction None.
Definition d_b : Descriptor := mkDescriptor 12 "b" KFunction None.
Definition d_c : Descriptor := mkDescriptor 13 "c" KFunction None.

Definition cli_chain : CLI :=
  snd (subcommand d_c (Some (ByObject d_b)) None None true true [p_text]
    (snd (subcommand d_b (Some (ByObject d_a)) None None true true []
      (snd (subcommand d_a (Some (ByObject d_root)) None None true true []
        (snd (command d_root None None true true [] CLI_init))))))).

(** The class [Counter], registered with its [self] parameter. *)
Definition d_counter : Descriptor := mkDescriptor 20 "Counter" KClass None.
Definition cli_counter : CLI :=
  snd (command d_counter None None true true [p_self] CLI_init).

(** A bound method, [obj.run]. *)
Definition d_run : Descriptor := mkDescriptor 30 "run" KMethod None.

(** The tree [root → {a, x}], [a → b → c], every handler taking the text
    that is left of the line; [x] is registered last. *)
Definition d_x : Descriptor := mkDescriptor 14 "x" KFunction None.

Definition cli_tree : CLI :=
  snd (subcommand d_x (Some (ByObject d_root)) None None true true [p_text]
    (snd (subcommand d_c (Some (ByObject d_b)) None None true true [p_text]
      (snd (subcommand d_b (Some (ByObject d_a)) None None true true [p_text]
        (snd (subcommand d_a (Some (ByObject d_root)) None None true true
                [p_text]
          (snd (command d_root None None true true [p_text] CLI_init))))))))).

(** The class [Math] with a text parameter and no [self]. *)
Definition cli_math_text : CLI :=
  snd (command d_math None None true true [p_text] CLI_init).

(** ** Roots by descriptor, what is left of a line, and the forest *)

(** The command with identity [n] was registered with [d]. *)
Definition root_registered_with (h : list Command) (d : Descriptor)
    (n : nat) : bool :=
  match h !! n with
  | Some c => registered_with c d
  | None => false
  end.

(** What [process_input] hands to the root command it found. *)
Definition rest_of (raw_input : string) : string :=
  match Str.split_ws raw_input with
  | None => EmptyString
  | Some (_, tl) => tl
  end.

(** The state after the lines [ls] have been processed, one after the
    other. *)
Definition after_lines (construct : Descriptor → Obj)
    (call_handler :
       Descriptor → bool → list pyval → list Obj → (pyval + exn) * list Obj)
    (bind_text : list ParameterSpec → ParameterSpec → string → pyval + exn)
    (ls : list string) (st : CLI) : CLI :=
  fold_left
    (λ s l, snd (process_input construct call_handler bind_text l s)) ls st.

(** What [process_input] does once it has found the command [n]. *)
Definition run_root (construct : Descriptor → Obj)
    (call_handler :
       Descriptor → bool → list pyval → list Obj → (pyval + exn) * list Obj)
    (bind_text : list ParameterSpec → ParameterSpec → string → pyval + exn)
    (n : nat) (tl : string) : M pyval :=
  (r <- invoke construct call_handler bind_text n tl ;;
   modify (with_result r) ;;
   st <- get ;; ret (result st))%cli.

(** The commands form a forest: the sets hold no command twice, a
    subcommand carries its parent in [__parent__] and is no root, and
    [__parent__] is set on subcommands only. *)
Record forest (st : CLI) : Prop := {
  forest_roots : NoDup (_commands st);
  forest_subs : ∀ p c, heap st !! p = Some c → NoDup (__subcommands__ c);
  forest_child : ∀ p c k,
    heap st !! p = Some c → k ∈ __subcommands__ c →
    ∃ ck, heap st !! k = Some ck ∧ __parent__ ck = Some p ∧ k ∉ _commands st;
  forest_back : ∀ k ck p,
    heap st !! k = Some ck → __parent__ ck = Some p →
    ∃ c, heap st !! p = Some c ∧ k ∈ __subcommands__ c
}.

(** Two states that differ in instances and [result] only. *)
Definition same_commands (st st' : CLI) : Prop :=
  _commands st' = _commands st ∧ _command_table st' = _command_table st ∧
  length (heap st') = length (heap st) ∧
  ∀ n c', heap st' !! n = Some c' →
    ∃ c, heap st !! n = Some c ∧
         c' = set_instance (_command_like_instance c') c.

(** Two states that differ in instances only. *)
Definition same_but_instances (st st' : CLI) : Prop :=
  same_commands st st' ∧ result st' = result st.

(** From [st] to [st'] every command that had its instance is as it
    was. *)
Definition keeps_instances (st st' : CLI) : Prop :=
  ∀ n c i, heap st !! n = Some c → _command_like_instance c = Some i →
           heap st' !! n = Some c.

(** A string made of white space only. *)
Fixpoint all_space (s : string) : bool :=
  match s with
  | EmptyString => true
  | String c s' => Str.is_space c && all_space s'
  end.

(** The exceptions of a decorator call, each with the state it leaves
    when the call started in [st]: three come before anything is written,
    the [AttributeError] of an object that takes no attributes after the
    write into the index, and "Parent not found" after the write into
    [__boundcommand__] as well. *)
Inductive failure (st : CLI) : raised → CLI → Prop :=
| failure_binding : failure st TypeError st
| failure_no_name :
    failure st (Registry (AttributeError "__name__")) st
| failure_no_parent :
    failure st (Registry (ValueError "parent cannot be None")) st
| failure_sealed d c :
    takes_attributes d = false →
    failure st (Registry (AttributeError "__boundcommand__")) (indexed d c st)
| failure_parent_not_found d c :
    takes_attributes d = true →
    failure st (Registry (ValueError "Parent not found")) (recorded d c st).

(** A name without a dot. *)
Fixpoint no_dot (s : string) : bool :=
  match s with
  | EmptyString => true
  | String c s' => negb (Ascii.eqb c ".") && no_dot s'
  end.

(** * Properties *)

(** ** Strings *)

Module StrFacts.
Import Str.

Lemma lower_ascii_idem c : lower_ascii (lower_ascii c) = lower_ascii c.
Proof. destruct c as [[] [] [] [] [] [] [] []]; reflexivity. Qed.

Lemma lower_idem s : lower (lower s) = lower s.
Proof.
  induction s as [|c s IH]; simpl; [reflexivity|].
  now rewrite lower_ascii_idem, IH.
Qed.

Lemma is_lower_spec s : is_lower s = true ↔ lower s = s.
Proof. unfold is_lower. apply String.eqb_eq. Qed.

Lemma split_ws_no_space s : no_space s = true → split_ws s = None.
Proof.
  induction s as [|c s IH]; simpl; [reflexivity|].
  intros [Hc Hs]%andb_true_iff. apply negb_true_iff in Hc.
  rewrite Hc, (IH Hs). reflexivity.
Qed.

Lemma skip_spaces_clean s : starts_clean s = true → skip_spaces s = s.
Proof.
  destruct s as [|c s]; simpl; [reflexivity|].
  intros Hc%negb_true_iff. now rewrite Hc.
Qed.

(** A word, one or more blanks, and a tail: the regular expression cuts the
    line at the first blank and the tail starts after the whole run. *)
Lemma split_ws_word w tl :
  no_space w = true → starts_clean tl = true →
  split_ws (w ++ " " ++ tl) = Some (w, tl).
Proof.
  intros Hw Htl. induction w as [|c w IH]; simpl in *.
  - now rewrite skip_spaces_clean.
  - apply andb_true_iff in Hw as [Hc Hw]. apply negb_true_iff in Hc.
    rewrite Hc, (IH Hw). reflexivity.
Qed.

Lemma no_space_starts_clean s : no_space s = true → starts_clean s = true.
Proof. destruct s; simpl; [reflexivity|]. now intros [? _]%andb_true_iff. Qed.

Lemma starts_clean_app w s :
  w ≠ EmptyString → no_space w = true → starts_clean (w ++ s) = true.
Proof.
  destruct w as [|c w]; [congruence|]. simpl.
  now intros _ [? _]%andb_true_iff.
Qed.

End StrFacts.

(** ** The matching rule *)

Section Matching.
Import Str StrFacts.

(** What one run of the loop decides, for every alias in turn. *)
Lemma matches_loop_iff lc cs als w :
  matches_loop lc cs als w = true ↔
  ∃ alias, alias ∈ als ∧
    ((cs = true ∧ w = folded lc alias) ∨ lower w = folded lc alias).
Proof.
  induction als as [|a als IH]; simpl.
  - split; [discriminate|]. intros (x & Hx & _). inversion Hx.
  - fold (folded lc a).
    destruct (cs && String.eqb w (folded lc a)) eqn:E1.
    { split; [|reflexivity]. intros _. exists a. split; [left|].
      apply andb_true_iff in E1 as [-> E1]. apply String.eqb_eq in E1.
      left. auto. }
    destruct (String.eqb (lower w) (folded lc a)) eqn:E2.
    { split; [|reflexivity]. intros _. exists a. split; [left|].
      apply String.eqb_eq in E2. right. exact E2. }
    rewrite IH. split.
    + intros (x & Hx & H). exists x. split; [right; exact Hx | exact H].
    + intros (x & Hx & H). apply elem_of_cons in Hx as [->|Hx].
      * exfalso. destruct H as [[-> ->]|H].
        -- rewrite String.eqb_refl in E1. discriminate.
        -- rewrite H, String.eqb_refl in E2. discriminate.
      * exists x. split; [exact Hx | exact H].
Qed.

Lemma matches_iff c w :
  matches c w = true ↔
  ∃ alias, alias ∈ _aliases c ∧
    ((case_sensitive c = true ∧ w = folded (lowercase c) alias)
     ∨ lower w = folded (lowercase c) alias).
Proof. apply matches_loop_iff. Qed.

(** A command matches its own name when its aliases are folded or when it
    compares exactly. *)
Lemma matches_name_folded n d als cs a :
  matches (Command_init n d als true cs a) n = true.
Proof.
  apply matches_iff. exists n. split; [left|]. right. reflexivity.
Qed.

Lemma matches_name_exact n d als lc a :
  matches (Command_init n d als lc true a) n = true.
Proof.
  apply matches_iff. exists n. split; [left|]. simpl.
  destruct lc; simpl; [right; reflexivity | left; auto].
Qed.

(** The four rows on the alias ["Hello"] and the words ["Hello"],
    ["hello"] and ["HELLO"]. *)
Example matches_table_Hello :
  let row lc cs :=
    map (matches (Command_init "Hello" d_Hello [] lc cs []))
        ["Hello"; "hello"; "HELLO"] in
  row true true = [true; true; true] ∧
  row true false = [true; true; true] ∧
  row false true = [true; false; false] ∧
  row false false = [false; false; false].
Proof. repeat split. Qed.

End Matching.

(** C1, as stated, fails: a case-sensitive command that keeps its alias
    ["hello"] as written also accepts ["HELLO"], against both the rule
    (exact equality) and its table row (original casing only). *)
Lemma matches_case_table_counterexample :
  let c := Command_init "hello" d_hello [] false true [] in
  case_sensitive c = true ∧ lowercase c = false ∧
  matches c "HELLO" = true ∧
  matches_as_specified c "HELLO" = false ∧
  "HELLO" ∉ _aliases c.
Proof.
  repeat split; try reflexivity.
  intros H. apply list_elem_of_singleton in H. discriminate.
Qed.

(** C1 (amended): what [matches] decides in each row.  With [lowercase]
    set the comparison ignores case whatever [case_sensitive] says; a
    case-sensitive command that keeps its aliases as written accepts an
    alias in its own casing and any word whose lowercase form is an alias;
    a case-insensitive command whose aliases are written in lowercase
    ignores case. *)
Theorem matches_case_table (c : Command) (w : string) :
  (lowercase c = true →
     (matches c w = true ↔
      ∃ alias, alias ∈ _aliases c ∧ Str.lower w = Str.lower alias))
  ∧ (lowercase c = false → case_sensitive c = true →
     (matches c w = true ↔
      ∃ alias, alias ∈ _aliases c ∧ (w = alias ∨ Str.lower w = alias)))
  ∧ (lowercase c = false → case_sensitive c = false →
     Forall (λ alias, Str.is_lower alias = true) (_aliases c) →
     (matches c w = true ↔
      ∃ alias, alias ∈ _aliases c ∧ Str.lower w = Str.lower alias)).
Proof.
  rewrite matches_iff. split; [|split].
  - intros ->. simpl. split; intros (a & Ha & H); exists a; (split; [exact Ha|]).
    + destruct H as [[_ ->]|H]; [apply StrFacts.lower_idem | exact H].
    + right. exact H.
  - intros -> ->. simpl. split; intros (a & Ha & H); exists a; (split; [exact Ha|]).
    + destruct H as [[_ H]|H]; auto.
    + destruct H as [H|H]; auto.
  - intros -> -> Hall. simpl. rewrite Forall_forall in Hall.
    split; intros (a & Ha & H); exists a; (split; [exact Ha|]);
      specialize (Hall a Ha); apply StrFacts.is_lower_spec in Hall.
    + destruct H as [[? _]|H]; [discriminate | congruence].
    + right. congruence.
Qed.

Lemma matches_case_table_witness :
  (matches (Command_init "Hello" d_Hello [] true true []) "HELLO" = true)
  ∧ (matches (Command_init "Hello" d_Hello [] false true []) "Hello" = true)
  ∧ (matches (Command_init "hello" d_hello [] false false []) "HeLLo" = true).
Proof.
  split; [|split].
  - apply (proj1 (matches_case_table _ "HELLO")); [reflexivity|].
    exists "Hello". split; [left | reflexivity].
  - apply (proj1 (proj2 (matches_case_table _ "Hello"))); [reflexivity..|].
    exists "Hello". split; [left | left; reflexivity].
  - apply (proj2 (proj2 (matches_case_table _ "HeLLo"))); [reflexivity..| |].
    + repeat constructor.
    + exists "hello". split; [left | reflexivity].
Defined.

(** C2 fails on the code: with [lowercase] and [case_sensitive] both off,
    the word is folded but the alias is not, so a command whose name has an
    upper-case letter does not match its own name. *)
Theorem matches_not_reflexive (n : string) (d : Descriptor)
    (a : list ParameterSpec) :
  Str.lower n ≠ n →
  matches (Command_init n d [] false false a) n = false.
Proof.
  intros Hn. apply not_true_is_false. intros H.
  apply matches_iff in H as (x & Hx & H). simpl in *.
  apply list_elem_of_singleton in Hx as ->.
  destruct H as [[? _]|H]; [discriminate | contradiction].
Qed.

Lemma matches_not_reflexive_witness :
  Str.lower "Hello" ≠ "Hello" ∧
  matches (Command_init "Hello" d_Hello [] false false []) "Hello" = false.
Proof.
  assert (H : Str.lower "Hello" ≠ "Hello") by discriminate.
  split; [exact H | apply (matches_not_reflexive "Hello" d_Hello [] H)].
Defined.

(** ** The registry *)

Section Registry.

(** On an object that takes no attributes the call ends at the
    assignment of [__boundcommand__]. *)
Lemma register_sealed d parent als nm lc cs a st :
  takes_attributes d = false →
  _register_command d parent als nm lc cs a st =
  (Raise (AttributeError "__boundcommand__"),
   indexed d (new_command d als nm lc cs a) st).
Proof.
  intros H. unfold _register_command, bind, get, modify, raise. simpl.
  now rewrite H.
Qed.

Lemma register_root d als nm lc cs a st :
  takes_attributes d = true →
  _register_command d None als nm lc cs a st =
  (Ok (VDescriptor d),
   with_commands (set_add (length (heap st)) (_commands st))
     (recorded d (new_command d als nm lc cs a) st)).
Proof.
  intros H. unfold _register_command, bind, get, modify. simpl.
  now rewrite H.
Qed.

(** Past that assignment, under a parent: the search, then the outcome. *)
Lemma register_under d p als nm lc cs a st :
  takes_attributes d = true →
  _register_command d (Some p) als nm lc cs a st =
  (command_parent <-
     lift (find_command (recorded d (new_command d als nm lc cs a) st) p) ;;
   match command_parent with
   | Some command_parent =>
       add_subcommand command_parent (length (heap st)) ;;
       ret (VDescriptor d)
   | None => raise (ValueError "Parent not found")
   end) (recorded d (new_command d als nm lc cs a) st).
Proof.
  intros H. unfold _register_command, bind, get, modify, lift. simpl.
  now rewrite H.
Qed.

Lemma register_no_parent d p als nm lc cs a st :
  takes_attributes d = true →
  find_command (recorded d (new_command d als nm lc cs a) st) p = Ok None →
  _register_command d (Some p) als nm lc cs a st =
  (Raise (ValueError "Parent not found"),
   recorded d (new_command d als nm lc cs a) st).
Proof.
  intros Hd H. rewrite register_under by exact Hd.
  unfold bind, lift. now rewrite H.
Qed.

(** A search that came to an answer comes to the same answer with a
    larger budget and with more objects in the heap. *)
Lemma find_subcommand_ext fuel h h' self id r :
  find_subcommand fuel h self id = Ok r →
  ∀ fuel', fuel ≤ fuel' → find_subcommand fuel' (h ++ h') self id = Ok r.
Proof.
  revert self. induction fuel as [|fuel IH]; intros self; [discriminate|].
  intros H [|fuel'] Hle; [lia|]. simpl in *.
  destruct (h !! self) as [c|] eqn:Hc; [|discriminate].
  rewrite (lookup_app_l_Some _ _ _ _ Hc).
  destruct (__subcommands__ c) as [|sub rest]; [exact H|].
  destruct (h !! sub) as [sc|] eqn:Hsc; [|discriminate].
  rewrite (lookup_app_l_Some _ _ _ _ Hsc).
  destruct (hits id sc); [exact H|].
  apply IH; [exact H | lia].
Qed.

Lemma find_command_loop_ext fuel h h' roots id r :
  find_command_loop fuel h roots id = Ok r →
  ∀ fuel', fuel ≤ fuel' →
  find_command_loop fuel' (h ++ h') roots id = Ok r.
Proof.
  induction roots as [|n roots IH]; intros H fuel' Hle; [exact H|].
  simpl in *.
  destruct (h !! n) as [c|] eqn:Hc; [|discriminate].
  rewrite (lookup_app_l_Some _ _ _ _ Hc).
  destruct (hits id c); [exact H|].
  destruct (find_subcommand fuel h n id) as [[m|]| | |] eqn:Hs;
    try discriminate.
  - rewrite (find_subcommand_ext _ _ _ _ _ _ Hs _ Hle). exact H.
  - rewrite (find_subcommand_ext _ _ _ _ _ _ Hs _ Hle). now apply IH.
Qed.

Lemma find_command_recorded d c st id r :
  find_command st id = Ok r → find_command (recorded d c st) id = Ok r.
Proof.
  intros H. unfold find_command. simpl.
  apply find_command_loop_ext with (fuel := length (heap st)); [exact H|].
  rewrite length_app. lia.
Qed.

Lemma keeps_refl c : keeps c c.
Proof. repeat split; auto. Qed.

Lemma elem_of_set_add x y s : x ∈ set_add y s ↔ x ∈ s ∨ x = y.
Proof.
  unfold set_add. destruct (decide (y ∈ s)) as [Hy|Hy].
  - split; [auto|]. intros [?| ->]; auto.
  - rewrite elem_of_app, list_elem_of_singleton. tauto.
Qed.

Lemma add_subcommand_state cp new st :
  let st' := snd (add_subcommand cp new st) in
  _commands st' = _commands st ∧ _command_table st' = _command_table st ∧
  instances st' = instances st ∧ result st' = result st ∧
  length (heap st') = length (heap st).
Proof.
  unfold add_subcommand, bind, update. simpl.
  destruct (heap st !! cp) as [pc|]; simpl; [|auto].
  match goal with |- context [<[cp := ?x]> _ !! new] =>
    destruct (<[cp := x]> (heap st) !! new) as [c2|] end; simpl;
    rewrite ?length_insert; auto.
Qed.

Lemma add_subcommand_cells cp new st n c :
  heap st !! n = Some c →
  ∃ c', heap (snd (add_subcommand cp new st)) !! n = Some c' ∧ keeps c c'.
Proof.
  intros Hn. pose proof (lookup_lt_Some _ _ _ Hn) as Hlt.
  unfold add_subcommand, bind, update. simpl.
  destruct (heap st !! cp) as [pc|] eqn:Hcp; simpl;
    [|exists c; split; [exact Hn | apply keeps_refl]].
  set (pc' := set_subcommands (set_add new (__subcommands__ pc)) pc).
  assert (H1 : ∃ c1, <[cp := pc']> (heap st) !! n = Some c1 ∧ keeps c c1).
  { rewrite list_lookup_insert. case_decide as Hd.
    - destruct Hd as [-> _]. exists pc'. split; [reflexivity|].
      rewrite Hcp in Hn. injection Hn as ->.
      repeat split; simpl; auto. intros k Hk. apply elem_of_set_add. auto.
    - exists c. split; [exact Hn | apply keeps_refl]. }
  destruct (<[cp := pc']> (heap st) !! new) as [c2|] eqn:Hnew; simpl;
    [|exact H1].
  destruct H1 as (c1 & Hc1 & Hk1).
  rewrite list_lookup_insert. case_decide as Hd.
  - destruct Hd as [-> _]. rewrite Hnew in Hc1. injection Hc1 as ->.
    eexists. split; [reflexivity|]. destruct Hk1 as (? & ? & ?).
    repeat split; simpl; auto.
  - exists c1. auto.
Qed.

(** Registration, whatever its outcome: the index maps the descriptor to
    the object just created, every root stays a root, and every object
    keeps its descriptor and the subcommands it had. *)
Lemma register_frame d parent als nm lc cs a st :
  let st' := snd (_register_command d parent als nm lc cs a st) in
  _command_table st' = <[d_id d := length (heap st)]> (_command_table st) ∧
  (∀ n, n ∈ _commands st → n ∈ _commands st') ∧
  (∀ n c, heap st !! n = Some c →
     ∃ c', heap st' !! n = Some c' ∧ keeps c c').
Proof.
  set (c0 := new_command d als nm lc cs a).
  assert (Hrec : ∀ n c, heap st !! n = Some c →
                   heap (recorded d c0 st) !! n = Some c).
  { intros n c Hn. simpl. now apply lookup_app_l_Some. }
  destruct (takes_attributes d) eqn:Hd;
    [|rewrite register_sealed by exact Hd; simpl; repeat split; auto;
      intros n c Hn; exists c; split; [now apply Hrec | apply keeps_refl]].
  destruct parent as [p|].
  - rewrite register_under by exact Hd. fold c0. unfold bind, lift, raise.
    destruct (find_command (recorded d c0 st) p) as [[cp|]| | |];
      simpl; try (repeat split; [auto | intros n c Hn; exists c; split;
                    [now apply Hrec | apply keeps_refl]]).
    destruct (add_subcommand cp (length (heap st)) (recorded d c0 st))
      as [[[]| | |] st2] eqn:Hadd; simpl;
      pose proof (add_subcommand_state cp (length (heap st)) (recorded d c0 st))
        as (Hc & Ht & _); rewrite Hadd in Hc, Ht; simpl in Hc, Ht;
      (split; [exact Ht|]); (split; [now rewrite Hc|]);
      intros n c Hn; apply Hrec in Hn;
      destruct (add_subcommand_cells cp (length (heap st)) _ _ _ Hn)
        as (c' & Hc' & Hk); rewrite Hadd in Hc'; eauto.
  - rewrite register_root by exact Hd. simpl. repeat split; auto.
    + intros n Hn. apply elem_of_set_add. auto.
    + intros n c Hn. exists c. split; [now apply lookup_app_l_Some|].
      apply keeps_refl.
Qed.

End Registry.

(** ** Registration under a parent that is not found *)

(** C4, as stated, fails: the failed call has already written the new
    object into the index. *)
Lemma register_unknown_parent_counterexample :
  let '(r, st') :=
    _register_command d_add (Some (ByObject d_math)) None None true true []
      CLI_init in
  r = Raise (ValueError "Parent not found") ∧
  _command_table CLI_init !! d_id d_add = None ∧
  _command_table st' !! d_id d_add = Some 0.
Proof. vm_compute. auto. Qed.

(** C4 (amended): when the search does not find the parent, the call
    raises: [ValueError] for an object that takes attributes, and for one
    that does not the [AttributeError] of the assignment of
    [__boundcommand__], which comes before the search.  Either way the
    roots and every object already registered are as before, and the index
    now maps the descriptor to the object the call created, which is
    attached nowhere; [__boundcommand__] is written in the first case
    only. *)
Theorem register_unknown_parent (st : CLI) (d : Descriptor) (p : Identifier)
    (als : option (list string)) (nm : option string) (lc cs : bool)
    (a : list ParameterSpec) :
  find_command st p = Ok None →
  let '(r, st') := _register_command d (Some p) als nm lc cs a st in
  r = Raise (if takes_attributes d then ValueError "Parent not found"
             else AttributeError "__boundcommand__") ∧
  _commands st' = _commands st ∧
  result st' = result st ∧
  heap st' = (heap st ++ [new_command d als nm lc cs a])%list ∧
  _command_table st' = <[d_id d := length (heap st)]> (_command_table st) ∧
  __boundcommand__ st' =
    if takes_attributes d
    then <[d_id d := length (heap st)]> (__boundcommand__ st)
    else __boundcommand__ st.
Proof.
  intros H. destruct (takes_attributes d) eqn:Hd.
  - rewrite register_no_parent by (auto using find_command_recorded).
    repeat split.
  - rewrite register_sealed by exact Hd. repeat split.
Qed.

Lemma register_unknown_parent_witness :
  find_command cli_math (ByName "nomatch") = Ok None ∧
  (let '(r, st') :=
     _register_command d_add (Some (ByName "nomatch")) None None true true []
       cli_math in
   r = Raise (ValueError "Parent not found") ∧
   _commands st' = _commands cli_math ∧
   _command_table st' !! d_id d_add = Some 1 ∧
   __boundcommand__ st' !! d_id d_add = Some 1) ∧
  (let '(r, st') :=
     _register_command d_run (Some (ByName "nomatch")) None None true true []
       cli_math in
   r = Raise (AttributeError "__boundcommand__") ∧
   _commands st' = _commands cli_math ∧
   _command_table st' !! d_id d_run = Some 1 ∧
   __boundcommand__ st' !! d_id d_run = None).
Proof.
  assert (H : find_command cli_math (ByName "nomatch") = Ok None) by reflexivity.
  split; [exact H|]. split.
  - pose proof (register_unknown_parent cli_math d_add (ByName "nomatch")
                  None None true true [] H) as Hr.
    destruct (_register_command d_add _ _ _ _ _ _ cli_math) as [r st'].
    destruct Hr as (Hr & Hc & _ & _ & Ht & Hb).
    split; [exact Hr|]. split; [exact Hc|].
    rewrite Ht, Hb. split; reflexivity.
  - pose proof (register_unknown_parent cli_math d_run (ByName "nomatch")
                  None None true true [] H) as Hr.
    destruct (_register_command d_run _ _ _ _ _ _ cli_math) as [r st'].
    destruct Hr as (Hr & Hc & _ & _ & Ht & Hb).
    split; [exact Hr|]. split; [exact Hc|].
    rewrite Ht, Hb. split; reflexivity.
Defined.

(** ** Registering a descriptor again *)

(** C9, as stated, fails in its first half: the call returns the
    command-like object it was given, not the [Command] it created. *)
Lemma register_returns_counterexample :
  let '(r, st') := _register_command d_math None None None true true [] CLI_init in
  heap st' !! 0 = Some (new_command d_math None None true true []) ∧
  r = Ok (VDescriptor d_math) ∧ r ≠ Ok (VCommand 0).
Proof. vm_compute. repeat split. discriminate. Qed.

(** C9 (amended): registration returns the command-like object; when the
    descriptor was registered before, its index entry now names the new
    object, and the object of the earlier registration is still among the
    roots or among the subcommands of its parent. *)
Theorem reregister_keeps_stale_node (st : CLI) (d : Descriptor) (old : nat)
    (parent : option Identifier) (als : option (list string))
    (nm : option string) (lc cs : bool) (a : list ParameterSpec) :
  _command_table st !! d_id d = Some old →
  old < length (heap st) →
  let '(r, st') := _register_command d parent als nm lc cs a st in
  (∀ v, r = Ok v → v = VDescriptor d) ∧
  (∃ new, _command_table st' !! d_id d = Some new ∧ new ≠ old ∧
          new = length (heap st)) ∧
  (old ∈ _commands st → old ∈ _commands st') ∧
  (∀ p c, heap st !! p = Some c → old ∈ __subcommands__ c →
     ∃ c', heap st' !! p = Some c' ∧ old ∈ __subcommands__ c').
Proof.
  intros Hold Hlt.
  pose proof (register_frame d parent als nm lc cs a st) as (Ht & Hr & Hc).
  destruct (_register_command d parent als nm lc cs a st) as [r st'] eqn:E.
  simpl in Ht, Hr, Hc. split; [|split; [|split]].
  - intros v ->. revert E. destruct (takes_attributes d) eqn:Hd;
      [|rewrite register_sealed by exact Hd; discriminate].
    destruct parent as [p|].
    + rewrite register_under by exact Hd. unfold bind, lift, raise.
      destruct (find_command _ p) as [[cp|]| | |]; simpl; try congruence.
      destruct (add_subcommand cp _ _) as [[[]| | |] ?]; simpl; unfold ret;
        intros [= <- _]; reflexivity.
    + rewrite register_root by exact Hd. congruence.
  - exists (length (heap st)). rewrite Ht, lookup_insert_eq.
    split; [reflexivity|]. split; [lia | reflexivity].
  - apply Hr.
  - intros p c Hp Ho. destruct (Hc p c Hp) as (c' & Hc' & _ & _ & Hs). eauto.
Qed.

Lemma reregister_keeps_stale_node_witness :
  _command_table cli_math !! d_id d_math = Some 0 ∧
  0 < length (heap cli_math) ∧
  let '(r, st') := _register_command d_math None None None true true [] cli_math in
  (∀ v, r = Ok v → v = VDescriptor d_math) ∧
  (∃ new, _command_table st' !! d_id d_math = Some new ∧ new ≠ 0 ∧
          new = length (heap cli_math)) ∧
  (0 ∈ _commands cli_math → 0 ∈ _commands st') ∧
  (∀ p c, heap cli_math !! p = Some c → 0 ∈ __subcommands__ c →
     ∃ c', heap st' !! p = Some c' ∧ 0 ∈ __subcommands__ c').
Proof.
  assert (H1 : _command_table cli_math !! d_id d_math = Some 0) by reflexivity.
  assert (H2 : 0 < length (heap cli_math)) by (simpl; lia).
  split; [exact H1|]. split; [exact H2|].
  exact (reregister_keeps_stale_node cli_math d_math 0 None None None true true
           [] H1 H2).
Defined.

(** ** The forest: what can be reached from the roots *)

Section Search.

(** The searches only ever answer with a command of the forest that
    passes the test. *)
Lemma find_subcommand_sound fuel h roots self id n :
  reachable h roots self →
  find_subcommand fuel h self id = Ok (Some n) →
  reachable h roots n ∧ ∃ c, h !! n = Some c ∧ hits id c = true.
Proof.
  revert self. induction fuel as [|fuel IH]; intros self Hr; [discriminate|].
  simpl. destruct (h !! self) as [c|] eqn:Hc; [|discriminate].
  destruct (__subcommands__ c) as [|sub rest] eqn:Hs; [discriminate|].
  assert (Hsub : reachable h roots sub).
  { eapply reachable_sub; eauto. rewrite Hs. left. }
  destruct (h !! sub) as [sc|] eqn:Hsc; [|discriminate].
  destruct (hits id sc) eqn:Hh.
  - intros [= <-]. eauto.
  - now apply IH.
Qed.

Lemma find_command_loop_sound fuel h roots l id n :
  (∀ r, r ∈ l → r ∈ roots) →
  find_command_loop fuel h l id = Ok (Some n) →
  reachable h roots n ∧ ∃ c, h !! n = Some c ∧ hits id c = true.
Proof.
  induction l as [|r l IH]; intros Hl; [discriminate|]. simpl.
  assert (Hr : reachable h roots r) by (apply reachable_root, Hl; left).
  destruct (h !! r) as [c|] eqn:Hc; [|discriminate].
  destruct (hits id c) eqn:Hh; [intros [= <-]; eauto|].
  destruct (find_subcommand fuel h r id) as [[m|]| | |] eqn:Hf;
    try discriminate.
  - intros [= <-]. eapply find_subcommand_sound; eauto.
  - apply IH. intros x Hx. apply Hl. now right.
Qed.

Lemma find_command_sound st id n :
  find_command st id = Ok (Some n) →
  reachable (heap st) (_commands st) n ∧
  ∃ c, heap st !! n = Some c ∧ hits id c = true.
Proof. apply find_command_loop_sound. auto. Qed.

End Search.

(** C6 fails on the code: [find_subcommand] returns from inside its loop
    on the first subcommand it sees, so a sibling that matches is never
    looked at.  Whichever of [add] and [sub] the set yields first, the
    other one is in the forest, matches its name, and is not found. *)
Theorem find_command_misses_sibling :
  (__subcommands__ <$> heap cli_math_add_sub !! 0 = Some [1; 2] ∧
   reachable (heap cli_math_add_sub) (_commands cli_math_add_sub) 2 ∧
   (flip matches "sub" <$> heap cli_math_add_sub !! 2) = Some true ∧
   find_command cli_math_add_sub (ByName "sub") = Ok None ∧
   find_command cli_math_add_sub (ByObject d_sub) = Ok None)
  ∧
  (__subcommands__ <$> heap cli_math_sub_add !! 0 = Some [2; 1] ∧
   reachable (heap cli_math_sub_add) (_commands cli_math_sub_add) 1 ∧
   (flip matches "add" <$> heap cli_math_sub_add !! 1) = Some true ∧
   find_command cli_math_sub_add (ByName "add") = Ok None ∧
   find_command cli_math_sub_add (ByObject d_add) = Ok None).
Proof.
  split; (split; [reflexivity|]); (split; [|repeat split]).
  - eapply (reachable_sub _ _ 0); [apply reachable_root; left | reflexivity|].
    right. left.
  - eapply (reachable_sub _ _ 0); [apply reachable_root; left | reflexivity|].
    right. left.
Qed.

(** ** Well-formed registries *)

Section WellFormed.

Lemma find_subcommand_total fuel h self id :
  (∀ n c, h !! n = Some c →
     ∀ k, k ∈ __subcommands__ c → n < k < length h) →
  self < length h → length h - self ≤ fuel →
  ∃ r, find_subcommand fuel h self id = Ok r.
Proof.
  intros Hord. revert self.
  induction fuel as [|fuel IH]; intros self Hlt Hf; [lia|]. simpl.
  destruct (lookup_lt_is_Some_2 _ _ Hlt) as [c Hc]. rewrite Hc.
  destruct (__subcommands__ c) as [|sub rest] eqn:Hs; [eauto|].
  assert (Hsub : self < sub < length h).
  { apply (Hord _ _ Hc). rewrite Hs. left. }
  destruct (lookup_lt_is_Some_2 h sub) as [sc Hsc]; [lia|]. rewrite Hsc.
  destruct (hits id sc); [eauto|]. apply IH; lia.
Qed.

Lemma find_command_loop_total h l id :
  (∀ n c, h !! n = Some c →
     ∀ k, k ∈ __subcommands__ c → n < k < length h) →
  (∀ r, r ∈ l → r < length h) →
  ∃ r, find_command_loop (length h) h l id = Ok r.
Proof.
  intros Hord. induction l as [|n l IH]; intros Hl; simpl; [eauto|].
  destruct (lookup_lt_is_Some_2 h n) as [c Hc]; [apply Hl; left|].
  rewrite Hc. destruct (hits id c); [eauto|].
  destruct (find_subcommand_total (length h) h n id Hord) as [[m|] ->];
    [apply Hl; left | lia | eauto |].
  apply IH. intros r Hr. apply Hl. now right.
Qed.

(** On a well-formed registry the search always comes to an answer. *)
Lemma find_command_total st id :
  well_formed st → ∃ r, find_command st id = Ok r.
Proof.
  intros [Ho Hr _ _]. now apply find_command_loop_total.
Qed.

Lemma add_subcommand_ok cp new st pc c2 :
  heap st !! cp = Some pc → heap st !! new = Some c2 → cp ≠ new →
  add_subcommand cp new st =
  (Ok tt,
   with_heap
     (<[new := set___parent__ (Some cp) c2]>
        (<[cp := set_subcommands (set_add new (__subcommands__ pc)) pc]>
           (heap st))) st).
Proof.
  intros Hcp Hnew Hne. unfold add_subcommand, bind, update. simpl.
  rewrite Hcp. simpl. rewrite list_lookup_insert_ne, Hnew by exact Hne.
  reflexivity.
Qed.

Lemma well_formed_indexed d c st :
  well_formed st → __subcommands__ c = [] → _parent c = None →
  well_formed (indexed d c st).
Proof.
  intros [Ho Hr Ht Hp] Hs Hpc. split; simpl; rewrite ?length_app; simpl.
  - intros n c' [[_ Hn]|[_ <-]]%lookup_snoc_Some k Hk.
    + specialize (Ho _ _ Hn _ Hk). lia.
    + rewrite Hs in Hk. inversion Hk.
  - intros r Hin. specialize (Hr _ Hin). lia.
  - intros k n. rewrite lookup_insert. case_decide.
    + intros [= <-]. lia.
    + intros Hk. specialize (Ht _ _ Hk). lia.
  - intros n c' [[_ Hn]|[_ <-]]%lookup_snoc_Some; eauto.
Qed.

Lemma well_formed_recorded d c st :
  well_formed st → __subcommands__ c = [] → _parent c = None →
  well_formed (recorded d c st).
Proof.
  intros Hwf Hs Hpc.
  destruct (well_formed_indexed d c st Hwf Hs Hpc) as [Ho Hr Ht Hp].
  split; assumption.
Qed.

End WellFormed.

Section Unregister.

Lemma elem_of_set_remove x y s s' :
  set_remove y s = Some s' → x ∈ s' ↔ x ∈ s ∧ x ≠ y.
Proof.
  unfold set_remove. case_decide; [|discriminate]. intros [= <-].
  rewrite list_elem_of_filter. tauto.
Qed.

Lemma remove_all_state l st :
  let st' := snd (remove_all l st) in
  heap st' = heap st ∧ _command_table st' = _command_table st ∧
  instances st' = instances st ∧ result st' = result st ∧
  __boundcommand__ st' = __boundcommand__ st ∧
  ∀ n, n ∈ _commands st' → n ∈ _commands st.
Proof.
  revert st. induction l as [|x l IH]; intros st; simpl; [repeat split; auto|].
  unfold bind, get, modify, raise. simpl.
  destruct (set_remove x (_commands st)) as [cs|] eqn:Hx; simpl;
    [|repeat split; auto].
  specialize (IH (with_commands cs st)). simpl in IH.
  destruct IH as (? & ? & ? & ? & ? & Hsub). repeat split; auto.
  intros n Hn. apply Hsub in Hn. simpl in Hn.
  now apply (elem_of_set_remove _ _ _ _ Hx) in Hn as [? _].
Qed.

(** Since [get_parent] reads [_parent], which nothing ever assigns,
    [unregister] never gets to the line that detaches a subcommand: the
    heap and the index come out as they went in. *)
Lemma unregister_state d st :
  (∀ n c, heap st !! n = Some c → _parent c = None) →
  let st' := snd (unregister d st) in
  heap st' = heap st ∧ _command_table st' = _command_table st ∧
  instances st' = instances st ∧ result st' = result st ∧
  ∀ n, n ∈ _commands st' → n ∈ _commands st.
Proof.
  intros Hp. unfold unregister, bind, get, lift. simpl.
  destruct (matched_commands (heap st) (_commands st) d) as [l| | |];
    simpl; try (repeat split; auto; fail).
  pose proof (remove_all_state l st) as (Hh & Ht & Hi & Hr & _ & Hc).
  destruct (remove_all l st) as [[[]| | |] st1]; simpl in *;
    try (repeat split; auto; fail).
  rewrite Ht. destruct (_command_table st !! d_id d) as [e|]; simpl;
    [|repeat split; auto].
  unfold load, get_parent. rewrite Hh.
  destruct (heap st !! e) as [ec|] eqn:He; simpl; [|repeat split; auto].
  rewrite (Hp _ _ He). simpl. repeat split; auto.
Qed.

Lemma well_formed_unregister d st :
  well_formed st → well_formed (snd (unregister d st)).
Proof.
  intros [Ho Hr Ht Hp].
  destruct (unregister_state d st Hp) as (Hh & Htab & _ & _ & Hc).
  split; rewrite ?Hh, ?Htab; auto.
Qed.

End Unregister.

(** C3 fails on the code: [add_subcommand] stores the back reference in
    [__parent__], [get_parent] reads [_parent], so [unregister] finds no
    parent and detaches nothing.  After [unregister(add)] the command is
    still a subcommand of [Math], and the search still finds it. *)
Theorem unregister_subcommand_stays :
  let '(r, st') := unregister d_add cli_math_add in
  r = Ok tt ∧
  (__parent__ <$> heap cli_math_add !! 1) = Some (Some 0) ∧
  (get_parent <$> heap cli_math_add !! 1) = Some None ∧
  (__subcommands__ <$> heap st' !! 0) = Some [1] ∧
  find_command st' (ByObject d_add) = Ok (Some 1) ∧
  find_command st' (ByName "add") = Ok (Some 1) ∧
  _command_table st' !! d_id d_add = Some 1.
Proof. vm_compute. repeat split. Qed.

Section Register.

Lemma reachable_valid st n :
  well_formed st → reachable (heap st) (_commands st) n →
  n < length (heap st).
Proof.
  intros [Ho Hr _ _]. induction 1 as [n Hn|p c n _ _ Hc Hn]; [auto|].
  now apply (Ho _ _ Hc).
Qed.

Lemma reachable_recorded d c st n :
  well_formed st →
  reachable (heap (recorded d c st)) (_commands (recorded d c st)) n →
  reachable (heap st) (_commands st) n.
Proof.
  intros Hwf. simpl.
  induction 1 as [n Hn|p pc n _ IH Hc Hn]; [now apply reachable_root|].
  apply reachable_sub with p pc; auto.
  apply lookup_snoc_Some in Hc as [[_ ?]|[-> _]]; [assumption|].
  apply (reachable_valid _ _ Hwf) in IH. lia.
Qed.

Lemma register_cases d parent als nm lc cs a st :
  well_formed st →
  registered d parent (new_command d als nm lc cs a) st
    (_register_command d parent als nm lc cs a st).
Proof.
  intros Hwf. set (c0 := new_command d als nm lc cs a).
  destruct (takes_attributes d) eqn:Hd;
    [|rewrite register_sealed by exact Hd; now constructor].
  destruct parent as [p|];
    [|rewrite register_root by exact Hd; now constructor].
  destruct (find_command_total st p Hwf) as [[cp|] Hf].
  - pose proof (find_command_recorded d c0 _ _ _ Hf) as Hf'.
    destruct (find_command_sound _ _ _ Hf) as (Hr & pc & Hpc & _).
    pose proof (lookup_lt_Some _ _ _ Hpc) as Hlt.
    rewrite register_under by exact Hd. fold c0. unfold bind at 1, lift.
    rewrite Hf'. unfold bind.
    rewrite (add_subcommand_ok cp (length (heap st)) _ pc c0); simpl.
    + now apply registered_sub with p.
    + now apply lookup_app_l_Some.
    + apply list_lookup_middle. reflexivity.
    + lia.
  - rewrite register_no_parent by (auto using find_command_recorded).
    now apply registered_failed with p.
Qed.

Lemma well_formed_register d parent als nm lc cs a st :
  well_formed st →
  well_formed (snd (_register_command d parent als nm lc cs a st)).
Proof.
  intros Hwf.
  pose proof (well_formed_recorded d (new_command d als nm lc cs a) st Hwf
                eq_refl eq_refl) as Hrec.
  destruct (register_cases d parent als nm lc cs a st Hwf)
    as [_|_ _|p _ _ _|p cp pc _ _ _ Hpc _]; simpl snd;
    [now apply well_formed_indexed| |exact Hrec|].
  - destruct Hrec as [Ho Hr Ht Hp]. split; auto. simpl in *.
    intros r [Hin| ->]%elem_of_set_add; [auto|]. rewrite length_app. simpl. lia.
  - pose proof (lookup_lt_Some _ _ _ Hpc) as Hlt.
    destruct Hrec as [Ho Hr Ht Hp]. simpl in *.
    split; simpl; rewrite ?length_insert; auto.
    + intros n c Hn k Hk.
      apply list_lookup_insert_Some in Hn as [(_ & <- & _)|[Hne Hn]];
        [inversion Hk|].
      apply list_lookup_insert_Some in Hn as [(<- & <- & _)|[_ Hn]];
        [|eauto].
      simpl in Hk. apply elem_of_set_add in Hk as [Hk| ->].
      * apply (Ho cp pc); [now apply lookup_app_l_Some | exact Hk].
      * rewrite length_app. simpl. lia.
    + intros n c Hn.
      apply list_lookup_insert_Some in Hn as [(_ & <- & _)|[Hne Hn]];
        [reflexivity|].
      apply list_lookup_insert_Some in Hn as [(<- & <- & _)|[_ Hn]];
        [|eauto].
      simpl. apply (Hp cp). now apply lookup_app_l_Some.
Qed.

Lemma well_formed_init : well_formed CLI_init.
Proof.
  split; simpl; intros *; try rewrite lookup_empty; try discriminate.
  intros H; inversion H.
Qed.

End Register.

(** ** The invariant of the registry *)

Section Invariant.

Lemma reachable_no_roots h n : ¬ reachable h [] n.
Proof. induction 1 as [n Hn|]; [inversion Hn | assumption]. Qed.

(** Registration never takes a command out of the forest. *)
Lemma register_reachable_mono d parent als nm lc cs a st n :
  reachable (heap st) (_commands st) n →
  let st' := snd (_register_command d parent als nm lc cs a st) in
  reachable (heap st') (_commands st') n.
Proof.
  intros Hr st'.
  destruct (register_frame d parent als nm lc cs a st) as (_ & Hroots & Hcells).
  fold st' in Hroots, Hcells.
  induction Hr as [n Hn|p c n _ IH Hc Hn]; [apply reachable_root; auto|].
  destruct (Hcells _ _ Hc) as (c' & Hc' & _ & _ & Hsub).
  apply reachable_sub with p c'; auto.
Qed.

(** After a registration that succeeded the forest is the old forest and
    the new command, which carries the descriptor. *)
Lemma register_reachable d parent als nm lc cs a st v st' :
  well_formed st →
  _register_command d parent als nm lc cs a st = (Ok v, st') →
  (∀ n, reachable (heap st') (_commands st') n ↔
        reachable (heap st) (_commands st) n ∨ n = length (heap st)) ∧
  (∃ c, heap st' !! length (heap st) = Some c ∧ command_like c = d).
Proof.
  intros Hwf E.
  pose proof (register_reachable_mono d parent als nm lc cs a st) as Hmono.
  rewrite E in Hmono. simpl in Hmono.
  set (c0 := new_command d als nm lc cs a) in *.
  destruct (register_cases d parent als nm lc cs a st Hwf)
    as [_|_ _|p _ _ _|p cp pc _ _ _ Hpc Hcp]; fold c0 in E.
  - discriminate.
  - (* a root command *)
    injection E as _ <-. simpl. split.
    + intros n. split.
      * induction 1 as [n Hn|p c n _ IH Hc Hn].
        -- apply elem_of_set_add in Hn as [Hn|Hn]; [left|right; exact Hn].
           now apply reachable_root.
        -- apply lookup_snoc_Some in Hc as [[_ Hc]|[_ <-]]; [|inversion Hn].
           destruct IH as [IH| ->]; [left; eapply reachable_sub; eauto|].
           apply lookup_lt_Some in Hc. lia.
      * intros [Hn| ->]; [now apply Hmono|].
        apply reachable_root, elem_of_set_add. now right.
    + exists c0. split; [|reflexivity]. now apply list_lookup_middle.
  - discriminate.
  - (* a subcommand of [cp] *)
    pose proof (lookup_lt_Some _ _ _ Hpc) as Hlt.
    injection E as _ <-. simpl. split.
    + intros n. split.
      * induction 1 as [n Hn|q c n _ IH Hc Hn];
          [left; now apply reachable_root|].
        apply list_lookup_insert_Some in Hc as [(_ & <- & _)|[Hne Hc]];
          [inversion Hn|].
        apply list_lookup_insert_Some in Hc as [(<- & <- & _)|[_ Hc]].
        -- simpl in Hn. apply elem_of_set_add in Hn as [Hn|Hn]; [left|now right].
           eapply reachable_sub; eauto.
        -- apply lookup_snoc_Some in Hc as [[_ Hc]|[-> _]]; [|congruence].
           destruct IH as [IH| ->]; [left; eapply reachable_sub; eauto|].
           congruence.
      * intros [Hn| ->]; [now apply Hmono|].
        apply reachable_sub with cp
          (set_subcommands (set_add (length (heap st)) (__subcommands__ pc)) pc).
        -- apply Hmono. exact Hcp.
        -- rewrite list_lookup_insert_ne by lia.
           apply list_lookup_insert_eq. rewrite length_app. simpl. lia.
        -- simpl. apply elem_of_set_add. now right.
    + eexists. split.
      * apply list_lookup_insert_eq. rewrite length_insert, length_app. simpl. lia.
      * reflexivity.
Qed.

(** Registering a descriptor the index does not know keeps the invariant. *)
Lemma register_fresh_invariant d parent als nm lc cs a st v st' :
  well_formed st → registry_invariant st →
  _command_table st !! d_id d = None →
  _register_command d parent als nm lc cs a st = (Ok v, st') →
  registry_invariant st'.
Proof.
  intros Hwf [Ha Hb] Hfresh E.
  destruct (register_reachable _ _ _ _ _ _ _ _ _ _ Hwf E) as (Hreach & cn & Hcn & Hd).
  destruct (register_frame d parent als nm lc cs a st) as (Ht & _ & Hcells).
  rewrite E in Ht, Hcells. simpl in Ht, Hcells.
  split.
  - intros n [Hn| ->]%Hreach.
    + destruct (Ha n Hn) as (c & Hc & Hk).
      destruct (Hcells _ _ Hc) as (c' & Hc' & Hcl & _).
      exists c'. split; [exact Hc'|]. intros k. rewrite Hcl, Ht, <- Hk.
      rewrite lookup_insert. case_decide as Hkd; [|reflexivity].
      subst k. apply lookup_lt_Some in Hc. split.
      * intros [= Hx]. lia.
      * intros Hk'. rewrite Hfresh in Hk'. discriminate.
    + exists cn. split; [exact Hcn|]. intros k. rewrite Hd, Ht.
      rewrite lookup_insert. case_decide as Hkd; [split; auto|].
      split; [|intros ->; contradiction].
      intros Hk. apply (wf_table _ Hwf) in Hk. lia.
  - intros k n. rewrite Ht, lookup_insert. case_decide.
    + intros [= <-]. apply Hreach. now right.
    + intros Hk. apply Hreach. left. eapply Hb; eauto.
Qed.

(** Unregistering keeps every command of the forest in the index. *)
Lemma unregister_reachable_indexed d st :
  well_formed st → reachable_indexed st →
  reachable_indexed (snd (unregister d st)).
Proof.
  intros Hwf Ha.
  destruct (unregister_state d st (wf_parent _ Hwf)) as (Hh & Ht & _ & _ & Hc).
  intros n Hn. unfold indexed_once. rewrite Hh, Ht. apply Ha.
  rewrite Hh in Hn. clear -Hn Hc.
  induction Hn as [n Hn|p c n _ IH Hp Hn]; [apply reachable_root; auto|].
  eapply reachable_sub; eauto.
Qed.

End Invariant.

Lemma registry_invariant_init : registry_invariant CLI_init.
Proof.
  split.
  - intros n Hn. now apply reachable_no_roots in Hn.
  - intros k n Hk. simpl in Hk. rewrite lookup_empty in Hk. discriminate.
Qed.

Lemma well_formed_cli_math : well_formed cli_math.
Proof. apply well_formed_register, well_formed_init. Qed.

Lemma registry_invariant_cli_math : registry_invariant cli_math.
Proof.
  eapply (register_fresh_invariant d_math None None None true true [] CLI_init
            (VDescriptor d_math)).
  - apply well_formed_init.
  - apply registry_invariant_init.
  - reflexivity.
  - reflexivity.
Qed.

(** C5, as stated, fails: [unregister] takes a root out of [_commands] and
    leaves its entry in the index, which then names a command outside the
    forest. *)
Lemma registry_invariant_counterexample :
  registry_invariant cli_math ∧
  let st' := snd (unregister d_math cli_math) in
  _commands st' = [] ∧ _command_table st' !! d_id d_math = Some 0 ∧
  ¬ registry_invariant st'.
Proof.
  split; [apply registry_invariant_cli_math|].
  split; [reflexivity|]. split; [reflexivity|].
  intros [_ Hb]. specialize (Hb (d_id d_math) 0 eq_refl).
  now apply reachable_no_roots in Hb.
Qed.

(** C5 (amended): on a registry that satisfies the invariant, a
    registration that succeeds for a descriptor the index does not hold
    keeps the invariant; an unregistration keeps every command of the forest
    in the index exactly once, and never takes an entry out of the index. *)
Theorem registry_invariant_preserved (st : CLI) :
  well_formed st → registry_invariant st →
  (∀ d parent als nm lc cs a v st',
     _command_table st !! d_id d = None →
     _register_command d parent als nm lc cs a st = (Ok v, st') →
     registry_invariant st')
  ∧ (∀ d, reachable_indexed (snd (unregister d st)) ∧
          _command_table (snd (unregister d st)) = _command_table st).
Proof.
  intros Hwf Hinv. split.
  - intros d parent als nm lc cs a v st' Hfresh E.
    eapply register_fresh_invariant; eauto.
  - intros d. split.
    + apply unregister_reachable_indexed; [exact Hwf | apply Hinv].
    + now destruct (unregister_state d st (wf_parent _ Hwf)) as (_ & ? & _).
Qed.

Lemma registry_invariant_preserved_witness :
  well_formed cli_math ∧ registry_invariant cli_math ∧
  registry_invariant cli_math_add ∧
  reachable_indexed (snd (unregister d_math cli_math)).
Proof.
  pose proof well_formed_cli_math as Hwf.
  pose proof registry_invariant_cli_math as Hinv.
  destruct (registry_invariant_preserved cli_math Hwf Hinv) as [Hreg Hunreg].
  split; [exact Hwf|]. split; [exact Hinv|]. split.
  - apply (Hreg d_add (Some (ByObject d_math)) None None true true []
             (VDescriptor d_add) cli_math_add); reflexivity.
  - apply Hunreg.
Defined.

(** ** Dispatch *)

Section DispatchFacts.

Variable construct : Descriptor → Obj.
Variable call_handler :
  Descriptor → bool → list pyval → list Obj → (pyval + exn) * list Obj.
Variable bind_text : list ParameterSpec → ParameterSpec → string → pyval + exn.

Local Abbreviation invoke := (invoke construct call_handler bind_text).
Local Abbreviation execute := (execute construct call_handler bind_text).
Local Abbreviation process_input :=
  (process_input construct call_handler bind_text).

Lemma first_matching_none h w l :
  Forall (λ r, ∃ c, h !! r = Some c ∧ matches c w = false) l →
  first_matching h w l = Ok None.
Proof.
  induction 1 as [|r l (c & Hc & Hm) _ IH]; simpl; [reflexivity|].
  now rewrite Hc, Hm.
Qed.

Lemma first_matching_some h w l n :
  first_matching h w l = Ok (Some n) →
  n ∈ l ∧ ∃ c, h !! n = Some c ∧ matches c w = true.
Proof.
  induction l as [|r l IH]; simpl; [discriminate|].
  destruct (h !! r) as [c|] eqn:Hc; [|discriminate].
  destruct (matches c w) eqn:Hm.
  - intros [= <-]. split; [left | eauto].
  - intros H. destruct (IH H) as [? ?]. split; [now right | assumption].
Qed.

Lemma first_matching_skip h w l1 l2 :
  Forall (λ r, ∃ c, h !! r = Some c ∧ matches c w = false) l1 →
  first_matching h w (l1 ++ l2) = first_matching h w l2.
Proof.
  induction 1 as [|r l (c & Hc & Hm) _ IH]; simpl; [reflexivity|].
  now rewrite Hc, Hm.
Qed.

(** The loop returns the command the word picks. *)
Lemma first_matching_picks h w l n :
  picks h w l n → first_matching h w l = Ok (Some n).
Proof.
  intros (before & after & sc & -> & Hb & Hn & Hm).
  rewrite first_matching_skip by exact Hb. simpl. now rewrite Hn, Hm.
Qed.

Lemma picks_elem_of h w l n : picks h w l n → n ∈ l.
Proof.
  intros (before & after & sc & -> & _). apply elem_of_app. right. left.
Qed.

(** One level of [execute]: descend into the subcommand the word picks... *)
Lemma execute_descend fuel n c w tl sub raw st :
  heap st !! n = Some c → Str.split_ws raw = Some (w, tl) →
  first_matching (heap st) w (__subcommands__ c) = Ok (Some sub) →
  execute (S fuel) n raw st = execute fuel sub tl st.
Proof.
  intros Hc Hs Hf. simpl. unfold bind at 1, load. rewrite Hc, Hs.
  unfold bind at 1, get. unfold bind at 1, lift. now rewrite Hf.
Qed.

(** ... or run this command on the whole of what is left. *)
Lemma execute_stop fuel n raw st :
  stops (heap st) n raw → execute (S fuel) n raw st = invoke n raw st.
Proof.
  intros (c & Hc & Hs). simpl. unfold bind at 1, load. rewrite Hc.
  destruct (Str.split_ws raw) as [[w tl]|]; [|reflexivity].
  unfold bind at 1, get. unfold bind at 1, lift.
  now rewrite (first_matching_none _ _ _ Hs).
Qed.

Lemma line_starts_clean ws tl :
  Forall (λ w, Str.no_space w = true ∧ w ≠ EmptyString) ws →
  Str.starts_clean tl = true → Str.starts_clean (line ws tl) = true.
Proof.
  intros [|w ws' [Hw Hne] _] Htl; [exact Htl|]. simpl.
  now apply StrFacts.starts_clean_app.
Qed.

Lemma execute_line fuel st n ws t tl :
  resolves (heap st) n ws t →
  Forall (λ w, Str.no_space w = true ∧ w ≠ EmptyString) ws →
  Str.starts_clean tl = true → stops (heap st) t tl →
  length ws < fuel →
  execute fuel n (line ws tl) st = invoke t tl st.
Proof.
  intros Hres. revert fuel.
  induction Hres as [n|n c w sub ws t Hc Hf _ IH]; intros fuel Hws Htl Hstop Hlen.
  - destruct fuel as [|fuel]; [simpl in Hlen; lia|]. now apply execute_stop.
  - destruct fuel as [|fuel]; [simpl in Hlen; lia|].
    inversion Hws as [|? ? [Hw Hne] Hws']; subst.
    rewrite (execute_descend fuel n c w (line ws tl) sub);
      auto using first_matching_picks.
    + apply IH; auto. simpl in Hlen. lia.
    + simpl. apply StrFacts.split_ws_word; [exact Hw|].
      now apply line_starts_clean.
Qed.

(** A path under a well-formed heap goes to younger and younger objects,
    so it is shorter than the heap. *)
Lemma resolves_length st n ws t :
  well_formed st → n < length (heap st) → resolves (heap st) n ws t →
  n + length ws ≤ t ∧ t < length (heap st).
Proof.
  intros Hwf Hn. induction 1 as [n|n c w sub ws t Hc Hf _ IH]; simpl; [lia|].
  apply picks_elem_of in Hf.
  pose proof (wf_ordered _ Hwf _ _ Hc _ Hf). lia.
Qed.

(** C10: a line whose leading token matches none of the root commands
    makes [process_input] return [None]; nothing is raised and the state,
    the field [result] included, is left as it was. *)
Theorem process_input_unmatched (st : CLI) (raw_input : string) :
  Forall (λ r, ∃ c, heap st !! r = Some c ∧
                    matches c (leading_token raw_input) = false)
         (_commands st) →
  process_input raw_input st = (Ok VNone, st).
Proof.
  intros H. apply first_matching_none in H.
  unfold process_input, leading_token in *.
  destruct (Str.split_ws raw_input) as [[hd tl]|];
    unfold bind, get, lift; simpl; now rewrite H.
Qed.

End DispatchFacts.

(** ** The dispatcher on the chain [root → a → b → c] *)

Lemma well_formed_cli_chain : well_formed cli_chain.
Proof. repeat apply well_formed_register. apply well_formed_init. Qed.

Example process_chain :
  fst (process_input construct_counter handler_counter bind_whole
         "root a b c rest" cli_chain) = Ok (VStr "rest").
Proof. reflexivity. Qed.

Lemma process_input_unmatched_witness :
  Forall (λ r, ∃ c, heap cli_chain !! r = Some c ∧
                    matches c (leading_token "a b c rest") = false)
         (_commands cli_chain) ∧
  process_input construct_counter handler_counter bind_whole
    "a b c rest" cli_chain = (Ok VNone, cli_chain).
Proof.
  assert (H : Forall (λ r, ∃ c, heap cli_chain !! r = Some c ∧
                matches c (leading_token "a b c rest") = false)
                (_commands cli_chain)).
  { repeat constructor. eexists. split; reflexivity. }
  split; [exact H|].
  exact (process_input_unmatched construct_counter handler_counter bind_whole
           cli_chain "a b c rest" H).
Defined.

(** ** The singleton instance of a command class *)

Section Singleton.

Variable construct : Descriptor → Obj.
Variable call_handler :
  Descriptor → bool → list pyval → list Obj → (pyval + exn) * list Obj.
Variable bind_text : list ParameterSpec → ParameterSpec → string → pyval + exn.

Local Abbreviation constructed := (constructed construct).
Local Abbreviation bound_values := (bound_values bind_text).
Local Abbreviation get_instance := (get_instance construct).
Local Abbreviation bind_parameters := (bind_parameters construct bind_text).
Local Abbreviation call := (call call_handler).
Local Abbreviation invoke := (invoke construct call_handler bind_text).
Local Abbreviation execute := (execute construct call_handler bind_text).

Lemma get_instance_cached st self c i :
  heap st !! self = Some c → _command_like_instance c = Some i →
  get_instance self st = (Ok i, st).
Proof.
  intros Hc Hi. unfold get_instance, bind, load. now rewrite Hc, Hi.
Qed.

Lemma get_instance_fresh st self c :
  heap st !! self = Some c → _command_like_instance c = None →
  get_instance self st = (Ok (length (instances st)), constructed self c st).
Proof.
  intros Hc Hi. unfold get_instance, bind, load, get, modify, update.
  rewrite Hc, Hi. simpl. now rewrite Hc.
Qed.

Lemma bind_parameters_cached st self c i all raw ps :
  heap st !! self = Some c → _command_like_instance c = Some i →
  bind_parameters self all ps raw st =
  (match bound_values i self all ps raw with
   | inl vs => Ok vs
   | inr e => Raise e
   end, st).
Proof.
  intros Hc Hi. induction ps as [|p ps IH]; simpl; [reflexivity|].
  unfold bind at 1. destruct (injects_self p).
  - unfold bind at 1. rewrite (get_instance_cached _ _ _ _ Hc Hi).
    unfold ret at 1. unfold bind. rewrite IH.
    now destruct (bound_values i self all ps raw).
  - destruct (injects_command_node p).
    + unfold ret at 1. unfold bind. rewrite IH.
      now destruct (bound_values i self all ps raw).
    + destruct (bind_text all p raw) as [v|e]; [|reflexivity].
      unfold ret at 1. unfold bind. rewrite IH.
      now destruct (bound_values i self all ps raw).
Qed.

Lemma bind_parameters_fresh st self c all raw ps vs :
  heap st !! self = Some c → _command_like_instance c = None →
  bound_values (length (instances st)) self all ps raw = inl vs →
  bind_parameters self all ps raw st =
  (Ok vs, if existsb injects_self ps then constructed self c st else st).
Proof.
  intros Hc Hi. revert vs. induction ps as [|p ps IH]; simpl; intros vs Hvs.
  { now injection Hvs as <-. }
  unfold bind at 1. destruct (injects_self p) eqn:Hp; simpl.
  - unfold bind at 1. rewrite (get_instance_fresh _ _ _ Hc Hi).
    unfold ret at 1. unfold bind.
    rewrite (bind_parameters_cached (constructed self c st) self
               (set_instance (Some (length (instances st))) c)
               (length (instances st))); [| |reflexivity].
    + destruct (bound_values _ self all ps raw); [|discriminate].
      now injection Hvs as <-.
    + simpl. apply list_lookup_insert_eq. eapply lookup_lt_Some; eauto.
  - destruct (injects_command_node p).
    + destruct (bound_values _ self all ps raw) as [vs'|] eqn:E; [|discriminate].
      injection Hvs as <-. unfold ret at 1. unfold bind.
      now rewrite (IH vs' eq_refl).
    + destruct (bind_text all p raw) as [v|e]; [|discriminate].
      destruct (bound_values _ self all ps raw) as [vs'|] eqn:E; [|discriminate].
      injection Hvs as <-. unfold ret at 1. unfold bind.
      now rewrite (IH vs' eq_refl).
Qed.

Lemma bound_values_self i self all ps raw vs :
  existsb injects_self ps = true →
  bound_values i self all ps raw = inl vs → VInstance i ∈ vs.
Proof.
  revert vs. induction ps as [|p ps IH]; simpl; intros vs; [discriminate|].
  destruct (injects_self p); simpl.
  - intros _. destruct (bound_values i self all ps raw); [|discriminate].
    intros [= <-]. left.
  - intros Hex.
    destruct (if injects_command_node p then _ else _); [|discriminate].
    destruct (bound_values i self all ps raw) as [vs'|]; [|discriminate].
    intros [= <-]. right. now apply IH.
Qed.

(** Invoking a command of a class that has its instance. *)
Lemma invoke_cached st n c i raw vs :
  heap st !! n = Some c → is_class c = true →
  _command_like_instance c = Some i →
  bound_values i n (args c) (args c) raw = inl vs →
  invoke n raw st = call (command_like c) true vs st.
Proof.
  intros Hc Hcl Hi Hvs. unfold invoke, match_arguments.
  unfold bind at 1. unfold bind at 1. unfold load at 1. rewrite Hc.
  rewrite (bind_parameters_cached _ _ _ _ _ _ _ Hc Hi), Hvs.
  unfold bind, load. now rewrite Hc, Hcl.
Qed.

(** Invoking a command of a class for the first time. *)
Lemma invoke_fresh st n c raw vs :
  heap st !! n = Some c → is_class c = true →
  _command_like_instance c = None →
  existsb injects_self (args c) = true →
  bound_values (length (instances st)) n (args c) (args c) raw = inl vs →
  invoke n raw st = call (command_like c) true vs (constructed n c st).
Proof.
  intros Hc Hcl Hi Hex Hvs. unfold invoke, match_arguments.
  unfold bind at 1. unfold bind at 1. unfold load at 1. rewrite Hc.
  rewrite (bind_parameters_fresh _ _ _ _ _ _ _ Hc Hi Hvs), Hex.
  unfold bind, load. simpl.
  rewrite list_lookup_insert_eq by (eapply lookup_lt_Some; eauto).
  simpl. now rewrite Hcl.
Qed.

End Singleton.

Example process_counter_twice :
  let run := process_input construct_counter handler_counter bind_whole in
  fst (run "counter" cli_counter) = Ok (VInt 1) ∧
  fst (run "counter" (snd (run "counter" cli_counter))) = Ok (VInt 2) ∧
  length (instances (snd (run "counter" (snd (run "counter" cli_counter))))) = 1.
Proof. vm_compute. repeat split. Qed.


(** ** The dispatcher always answers *)

Section Totality.

Variable construct : Descriptor → Obj.
Variable call_handler :
  Descriptor → bool → list pyval → list Obj → (pyval + exn) * list Obj.
Variable bind_text : list ParameterSpec → ParameterSpec → string → pyval + exn.

Local Abbreviation get_instance := (get_instance construct).
Local Abbreviation bind_parameters := (bind_parameters construct bind_text).
Local Abbreviation invoke := (invoke construct call_handler bind_text).
Local Abbreviation execute := (execute construct call_handler bind_text).
Local Abbreviation process_input :=
  (process_input construct call_handler bind_text).

Lemma first_matching_total h w l :
  (∀ r, r ∈ l → r < length h) → ∃ r, first_matching h w l = Ok r.
Proof.
  induction l as [|n l IH]; intros Hl; simpl; [eauto|].
  destruct (lookup_lt_is_Some_2 h n) as [c ->]; [apply Hl; left|].
  destruct (matches c w); [eauto|]. apply IH. intros r Hr. apply Hl. now right.
Qed.

Lemma get_instance_defined st self :
  is_Some (heap st !! self) →
  ∃ i st', get_instance self st = (Ok i, st') ∧ is_Some (heap st' !! self).
Proof.
  intros [c Hc]. destruct (_command_like_instance c) as [i|] eqn:Hi.
  - exists i, st. split; [now apply get_instance_cached with c | eauto].
  - eexists _, _. split; [exact (get_instance_fresh construct st self c Hc Hi)|].
    simpl.
    apply lookup_lt_is_Some. rewrite length_insert.
    eapply lookup_lt_Some; eauto.
Qed.

Lemma bind_parameters_defined self all raw ps st :
  is_Some (heap st !! self) →
  ∃ r st', bind_parameters self all ps raw st = (r, st') ∧
           defined r ∧ is_Some (heap st' !! self).
Proof.
  revert st. induction ps as [|p ps IH]; intros st Hs; simpl.
  { exists (Ok []), st. repeat split; auto. }
  assert (H : ∀ v st1, is_Some (heap st1 !! self) →
            ∃ r st', bind (bind_parameters self all ps raw)
                       (λ vs, ret (v :: vs)) st1 = (r, st') ∧
                     defined r ∧ is_Some (heap st' !! self)).
  { intros v st1 Hs1. unfold bind.
    destruct (IH st1 Hs1) as ([vs| | |] & st2 & -> & Hd & Hs2);
      eexists _, _; (split; [reflexivity|]); auto. }
  unfold bind at 1. destruct (injects_self p).
  - unfold bind at 1.
    destruct (get_instance_defined st self Hs) as (i & st' & -> & Hs').
    unfold ret at 1. now apply H.
  - destruct (injects_command_node p); [unfold ret at 1; now apply H|].
    destruct (bind_text all p raw) as [v|e]; [unfold ret at 1; now apply H|].
    exists (Raise e), st. repeat split; auto.
Qed.

Lemma invoke_defined n raw st :
  is_Some (heap st !! n) → defined (fst (invoke n raw st)).
Proof.
  intros Hs. pose proof Hs as [c Hc]. unfold invoke, match_arguments.
  unfold bind at 1. unfold bind at 1. unfold load at 1. rewrite Hc.
  destruct (bind_parameters_defined n (args c) raw (args c) st Hs)
    as ([vs| | |] & st2 & -> & Hd & [c' Hc']); simpl in *; auto.
  unfold bind, load. rewrite Hc'.
  destruct (is_class c'); unfold call;
    destruct (call_handler _ _ _ _) as [[v|e] os]; exact I.
Qed.

Lemma execute_defined st fuel n raw :
  well_formed st → n < length (heap st) → length (heap st) - n ≤ fuel →
  defined (fst (execute fuel n raw st)).
Proof.
  intros Hwf. revert n raw.
  induction fuel as [|fuel IH]; intros n raw Hn Hf; [lia|].
  destruct (lookup_lt_is_Some_2 _ _ Hn) as [c Hc]. simpl.
  unfold bind at 1, load. rewrite Hc.
  destruct (Str.split_ws raw) as [[w tl]|]; [|apply invoke_defined; eauto].
  unfold bind at 1, get. unfold bind at 1, lift.
  destruct (first_matching_total (heap st) w (__subcommands__ c))
    as [[sub|] Hf'].
  - intros r Hr. now apply (wf_ordered _ Hwf _ _ Hc).
  - rewrite Hf'. apply first_matching_some in Hf' as [Hin _].
    pose proof (wf_ordered _ Hwf _ _ Hc _ Hin). apply IH; lia.
  - rewrite Hf'. apply invoke_defined; eauto.
Qed.

(** On every well-formed registry [process_input] returns or raises. *)
Lemma process_input_defined st raw :
  well_formed st → defined (fst (process_input raw st)).
Proof.
  intros Hwf. unfold process_input.
  destruct (match Str.split_ws raw with
            | Some (hd, tl) => (hd, tl) | None => (raw, EmptyString)
            end) as [w tl].
  unfold bind at 1, get. unfold bind at 1, lift.
  destruct (first_matching_total (heap st) w (_commands st) (wf_roots _ Hwf))
    as [[n|] Hf]; rewrite Hf; [|exact I].
  apply first_matching_some in Hf as [Hin _]. apply (wf_roots _ Hwf) in Hin.
  pose proof (execute_defined st (length (heap st)) n tl Hwf Hin) as Hd.
  unfold bind. destruct (execute _ n tl st) as [[v| | |] st2]; simpl in *;
    auto; apply Hd; lia.
Qed.

End Totality.

(** ** The dispatcher leaves the registry alone *)

Section Frame.

Variable construct : Descriptor → Obj.
Variable call_handler :
  Descriptor → bool → list pyval → list Obj → (pyval + exn) * list Obj.
Variable bind_text : list ParameterSpec → ParameterSpec → string → pyval + exn.

Local Abbreviation get_instance := (get_instance construct).
Local Abbreviation bind_parameters := (bind_parameters construct bind_text).
Local Abbreviation invoke := (invoke construct call_handler bind_text).
Local Abbreviation execute := (execute construct call_handler bind_text).
Local Abbreviation process_input :=
  (process_input construct call_handler bind_text).

Lemma same_registry_refl st : same_registry st st.
Proof. repeat split; auto. intros n c Hc. exists c. auto. Qed.

Lemma same_registry_trans st1 st2 st3 :
  same_registry st1 st2 → same_registry st2 st3 → same_registry st1 st3.
Proof.
  intros (Hc1 & Ht1 & Hl1 & Hh1) (Hc2 & Ht2 & Hl2 & Hh2).
  repeat split; try congruence.
  intros n c3 Hn3. destruct (Hh2 _ _ Hn3) as (c2 & Hn2 & ? & ? & ?).
  destruct (Hh1 _ _ Hn2) as (c1 & Hn1 & ? & ? & ?).
  exists c1. repeat split; congruence.
Qed.

Lemma get_instance_same self st :
  same_registry st (snd (get_instance self st)).
Proof.
  unfold get_instance, bind, load.
  destruct (heap st !! self) as [c|] eqn:Hc; [|apply same_registry_refl].
  destruct (_command_like_instance c); [apply same_registry_refl|].
  unfold get, modify, update. simpl. rewrite Hc. simpl.
  unfold same_registry. simpl. rewrite length_insert.
  repeat split.
  intros n c' [(<- & <- & _)|[_ Hn]]%list_lookup_insert_Some; eauto.
Qed.

Lemma bind_parameters_same self all raw ps st :
  same_registry st (snd (bind_parameters self all ps raw st)).
Proof.
  revert st. induction ps as [|p ps IH]; intros st; simpl;
    [apply same_registry_refl|].
  assert (H : ∀ v st1, same_registry st st1 →
            same_registry st (snd (bind (bind_parameters self all ps raw)
                                     (λ vs, ret (v :: vs)) st1))).
  { intros v st1 H1. apply same_registry_trans with st1; [exact H1|].
    unfold bind. specialize (IH st1).
    destruct (bind_parameters self all ps raw st1) as [[vs| | |] st2];
      exact IH. }
  unfold bind at 1. destruct (injects_self p).
  - unfold bind at 1. pose proof (get_instance_same self st) as Hg.
    destruct (get_instance self st) as [[i| | |] st1]; simpl in *; auto.
  - destruct (injects_command_node p);
      [apply H, same_registry_refl|].
    destruct (bind_text all p raw) as [v|e];
      [apply H, same_registry_refl | apply same_registry_refl].
Qed.

Lemma invoke_same n raw st : same_registry st (snd (invoke n raw st)).
Proof.
  unfold invoke, match_arguments. unfold bind at 1. unfold bind at 1.
  unfold load at 1.
  destruct (heap st !! n) as [c|]; [|apply same_registry_refl].
  pose proof (bind_parameters_same n (args c) raw (args c) st) as Hb.
  destruct (bind_parameters n (args c) (args c) raw st) as [[vs| | |] st1];
    simpl in *; auto.
  apply same_registry_trans with st1; [exact Hb|].
  unfold bind, load. destruct (heap st1 !! n) as [c'|];
    [|apply same_registry_refl].
  destruct (is_class c'); unfold call;
    destruct (call_handler _ _ _ _) as [r os]; simpl;
    repeat split; eauto.
Qed.

Lemma execute_same fuel n raw st : same_registry st (snd (execute fuel n raw st)).
Proof.
  revert n raw. induction fuel as [|fuel IH]; intros n raw; simpl;
    [apply same_registry_refl|].
  unfold bind at 1, load.
  destruct (heap st !! n) as [c|]; [|apply same_registry_refl].
  destruct (Str.split_ws raw) as [[w tl]|]; [|apply invoke_same].
  unfold bind at 1, get. unfold bind at 1, lift.
  destruct (first_matching _ w _) as [[sub|]| | |];
    auto using same_registry_refl, invoke_same.
Qed.

Lemma process_input_same raw st :
  same_registry st (snd (process_input raw st)).
Proof.
  unfold process_input.
  destruct (match Str.split_ws raw with
            | Some (hd, tl) => (hd, tl) | None => (raw, EmptyString)
            end) as [w tl].
  unfold bind at 1, get. unfold bind at 1, lift.
  destruct (first_matching _ w _) as [[n|]| | |];
    try apply same_registry_refl.
  pose proof (execute_same (length (heap st)) n tl st) as He.
  unfold bind.
  destruct (execute _ n tl st) as [[v| | |] st1]; simpl in *; auto.
Qed.

Lemma well_formed_same st st' :
  same_registry st st' → well_formed st → well_formed st'.
Proof.
  intros (Hc & Ht & Hl & Hh) [Ho Hr Htab Hp].
  split; rewrite ?Hc, ?Ht, ?Hl; auto.
  - intros n c' Hn k Hk. destruct (Hh _ _ Hn) as (c & Hc' & _ & Hs & _).
    rewrite Hs in Hk. eauto.
  - intros n c' Hn. destruct (Hh _ _ Hn) as (c & Hc' & _ & _ & Hpar).
    rewrite Hpar. eauto.
Qed.

End Frame.

(** Every state of the registry is well formed. *)
Lemma api_state_well_formed st : api_state st → well_formed st.
Proof.
  induction 1.
  - apply well_formed_init.
  - now apply well_formed_register.
  - now apply well_formed_unregister.
  - eapply well_formed_same; [apply process_input_same | assumption].
Qed.

(** * Further properties of the registry and the dispatcher *)

(** ** Finding root commands *)

Section FindRoots.

Lemma find_command_loop_hits h l id :
  (∀ n c, h !! n = Some c →
     ∀ k, k ∈ __subcommands__ c → n < k < length h) →
  (∀ r, r ∈ l → r < length h) →
  (∃ r c, r ∈ l ∧ h !! r = Some c ∧ hits id c = true) →
  ∃ m, find_command_loop (length h) h l id = Ok (Some m).
Proof.
  intros Hord. induction l as [|n l IH]; intros Hl (r & c & Hr & Hc & Hh).
  { inversion Hr. }
  simpl. destruct (lookup_lt_is_Some_2 h n) as [cn Hcn]; [apply Hl; left|].
  rewrite Hcn. destruct (hits id cn) eqn:Hn; [eauto|].
  destruct (find_subcommand_total (length h) h n id Hord) as [[m|] ->];
    [apply Hl; left | lia | eauto |].
  apply IH.
  - intros x Hx. apply Hl. now right.
  - apply elem_of_cons in Hr as [->|Hr]; [congruence|]. eauto.
Qed.

Lemma find_command_hits_root st id r c :
  well_formed st →
  r ∈ _commands st → heap st !! r = Some c → hits id c = true →
  ∃ m cm, find_command st id = Ok (Some m) ∧
          reachable (heap st) (_commands st) m ∧
          heap st !! m = Some cm ∧ hits id cm = true.
Proof.
  intros Hwf Hr Hc Hh.
  destruct (find_command_loop_hits (heap st) (_commands st) id
              (wf_ordered _ Hwf) (wf_roots _ Hwf)) as [m Hm]; [eauto|].
  destruct (find_command_sound st id m Hm) as (Hreach & cm & Hcm & Hhm).
  exists m, cm. auto.
Qed.

(** A root command that passes the test is never missed: when some root
    matches the name (or was registered with the object), [find_command]
    answers with a command of the forest that does. *)
Theorem find_command_finds_roots (st : CLI) (id : Identifier) (r : nat)
    (c : Command) :
  well_formed st →
  r ∈ _commands st → heap st !! r = Some c → hits id c = true →
  ∃ m cm, find_command st id = Ok (Some m) ∧
          reachable (heap st) (_commands st) m ∧
          heap st !! m = Some cm ∧ hits id cm = true.
Proof. apply find_command_hits_root. Qed.

Lemma find_command_object_root st d r c :
  well_formed st → reachable_indexed st →
  r ∈ _commands st → heap st !! r = Some c → registered_with c d = true →
  find_command st (ByObject d) = Ok (Some r).
Proof.
  intros Hwf Hidx Hr Hc Hd.
  destruct (find_command_hits_root st (ByObject d) r c Hwf Hr Hc Hd)
    as (m & cm & Hf & Hreach & Hcm & Hhm).
  rewrite Hf. do 2 f_equal.
  destruct (Hidx m Hreach) as (cm' & Hcm' & Hkm).
  destruct (Hidx r (reachable_root _ _ _ Hr)) as (c' & Hc' & Hkr).
  rewrite Hcm in Hcm'. injection Hcm' as <-.
  rewrite Hc in Hc'. injection Hc' as <-.
  simpl in Hhm. unfold registered_with in Hd, Hhm.
  apply Nat.eqb_eq in Hd, Hhm.
  assert (H1 : _command_table st !! d_id d = Some m) by (apply Hkm; auto).
  assert (H2 : _command_table st !! d_id d = Some r) by (apply Hkr; auto).
  congruence.
Qed.

(** With every command of the forest in the index once, the search by
    object for a root is exact. *)
Theorem find_command_root_by_object (st : CLI) (d : Descriptor) (r : nat)
    (c : Command) :
  well_formed st → reachable_indexed st →
  r ∈ _commands st → heap st !! r = Some c → registered_with c d = true →
  find_command st (ByObject d) = Ok (Some r).
Proof. apply find_command_object_root. Qed.

End FindRoots.

Lemma find_command_finds_roots_witness :
  ∃ m cm, find_command cli_math_add_sub (ByName "MATH") = Ok (Some m) ∧
          reachable (heap cli_math_add_sub) (_commands cli_math_add_sub) m ∧
          heap cli_math_add_sub !! m = Some cm ∧ hits (ByName "MATH") cm = true.
Proof.
  apply (find_command_finds_roots cli_math_add_sub (ByName "MATH") 0
           (set_subcommands [1; 2] (new_command d_math None None true true []))).
  - repeat apply well_formed_register. apply well_formed_init.
  - left.
  - reflexivity.
  - reflexivity.
Defined.

Lemma find_command_root_by_object_witness :
  find_command cli_math (ByObject d_math) = Ok (Some 0).
Proof.
  apply (find_command_root_by_object cli_math d_math 0
           (new_command d_math None None true true [])).
  - apply well_formed_cli_math.
  - apply registry_invariant_cli_math.
  - left.
  - reflexivity.
  - reflexivity.
Defined.

(** ** What [unregister] does to the roots *)

Section UnregisterRoots.

Lemma filter_all {A} (P : A → Prop) `{∀ x, Decision (P x)} (l : list A) :
  (∀ x, x ∈ l → P x) → filter P l = l.
Proof.
  induction l as [|x l IH]; intros Hl; [reflexivity|].
  rewrite filter_cons_True by (apply Hl; left).
  f_equal. apply IH. intros y Hy. apply Hl. now right.
Qed.

Lemma filter_ext_elem {A} (P Q : A → Prop) `{∀ x, Decision (P x)}
    `{∀ x, Decision (Q x)} (l : list A) :
  (∀ x, x ∈ l → P x ↔ Q x) → filter P l = filter Q l.
Proof.
  induction l as [|x l IH]; intros Hl; [reflexivity|].
  assert (Hx : P x ↔ Q x) by (apply Hl; left).
  assert (Hr : filter P l = filter Q l).
  { apply IH. intros y Hy. apply Hl. now right. }
  destruct (decide (P x)) as [Hp|Hp].
  - rewrite !filter_cons_True by tauto. now rewrite Hr.
  - rewrite !filter_cons_False by tauto. exact Hr.
Qed.

Lemma with_commands_id st : with_commands (_commands st) st = st.
Proof. now destruct st. Qed.

Lemma matched_commands_filter h l d :
  (∀ r, r ∈ l → r < length h) →
  matched_commands h l d =
  Ok (filter (λ n, root_registered_with h d n = true) l).
Proof.
  induction l as [|n l IH]; intros Hl; simpl; [reflexivity|].
  destruct (lookup_lt_is_Some_2 h n) as [c Hc]; [apply Hl; left|].
  rewrite Hc, IH by (intros r Hr; apply Hl; now right).
  unfold root_registered_with at 2.
  destruct (registered_with c d) eqn:Hd.
  - rewrite filter_cons_True; [reflexivity|].
    unfold root_registered_with. now rewrite Hc.
  - rewrite filter_cons_False; [reflexivity|].
    unfold root_registered_with. rewrite Hc, Hd. discriminate.
Qed.

Lemma remove_all_filter l st :
  NoDup l → (∀ x, x ∈ l → x ∈ _commands st) →
  remove_all l st =
  (Ok tt, with_commands (filter (λ n, n ∉ l) (_commands st)) st).
Proof.
  revert st. induction l as [|x l IH]; intros st Hnd Hl; simpl.
  { unfold ret. rewrite filter_all; [now rewrite with_commands_id|].
    intros y _ Hy. inversion Hy. }
  apply NoDup_cons in Hnd as [Hx Hnd].
  unfold bind at 1, get. unfold set_remove.
  rewrite decide_True by (apply Hl; left).
  unfold bind, modify.
  rewrite IH; [|exact Hnd|].
  - simpl. f_equal. unfold with_commands. simpl. f_equal.
    rewrite list_filter_filter. apply list_filter_iff.
    intros y. rewrite elem_of_cons. split.
    + intros [Hy Hne] [?|?]; auto.
    + intros Hy. split; [intros ?|intros ->]; apply Hy; auto.
  - simpl. intros y Hy. apply list_elem_of_filter. split.
    + intros ->. contradiction.
    + apply Hl. now right.
Qed.

Lemma unregister_exact d st :
  well_formed st → NoDup (_commands st) →
  unregister d st =
  (Ok tt,
   with_commands
     (filter (λ n, root_registered_with (heap st) d n = false) (_commands st))
     st).
Proof.
  intros Hwf Hnd. unfold unregister. unfold bind at 1, get.
  unfold bind at 1, lift.
  rewrite (matched_commands_filter _ _ _ (wf_roots _ Hwf)).
  unfold bind at 1.
  rewrite remove_all_filter;
    [|now apply NoDup_filter
     |intros x Hx; now apply list_elem_of_filter in Hx as [_ ?]].
  unfold bind at 1, get. simpl.
  assert (Hroots :
    filter (λ n, n ∉ filter (λ n0, root_registered_with (heap st) d n0 = true)
                           (_commands st)) (_commands st)
    = filter (λ n, root_registered_with (heap st) d n = false) (_commands st)).
  { apply filter_ext_elem. intros x Hx. rewrite list_elem_of_filter.
    destruct (root_registered_with (heap st) d x); split.
    - intros H. exfalso. apply H. auto.
    - discriminate.
    - reflexivity.
    - intros _ [? _]. discriminate. }
  rewrite Hroots.
  destruct (_command_table st !! d_id d) as [e|] eqn:He; [|reflexivity].
  unfold bind, load. simpl.
  destruct (lookup_lt_is_Some_2 (heap st) e) as [ec Hec];
    [eapply wf_table; eauto|].
  rewrite Hec. unfold get_parent. now rewrite (wf_parent _ Hwf _ _ Hec).
Qed.

(** [unregister] returns without raising; it takes out of the roots the
    commands registered with the object, keeps the other roots in their
    order, and changes nothing else: the heap, the index and the last
    result are as before. *)
Theorem unregister_removes_roots (st : CLI) (d : Descriptor) :
  well_formed st → NoDup (_commands st) →
  unregister d st =
  (Ok tt,
   with_commands
     (filter (λ n, root_registered_with (heap st) d n = false) (_commands st))
     st).
Proof. apply unregister_exact. Qed.

(** Unregistering a second time changes nothing more. *)
Theorem unregister_idempotent (st : CLI) (d : Descriptor) :
  well_formed st → NoDup (_commands st) →
  unregister d (snd (unregister d st)) = (Ok tt, snd (unregister d st)).
Proof.
  intros Hwf Hnd. rewrite (unregister_exact d st Hwf Hnd). simpl.
  rewrite unregister_exact.
  - simpl. f_equal. unfold with_commands. simpl. f_equal.
    rewrite list_filter_filter. apply list_filter_iff. tauto.
  - pose proof (well_formed_unregister d st Hwf) as H.
    now rewrite (unregister_exact d st Hwf Hnd) in H.
  - simpl. now apply NoDup_filter.
Qed.

(** An object registered as a root command and then unregistered: what
    is left of the roots are the earlier roots without those that were
    registered with the same object, so an earlier registration of the
    object goes as well; the roots are the ones from before exactly when
    none of them was registered with it.  The object that was created stays
    in the heap and the index still maps the descriptor to it.  This holds
    also when the registration raised at [__boundcommand__]. *)
Theorem register_unregister_root (st : CLI) (d : Descriptor)
    (als : option (list string)) (nm : option string) (lc cs : bool)
    (a : list ParameterSpec) :
  well_formed st → NoDup (_commands st) →
  let st1 := snd (_register_command d None als nm lc cs a st) in
  unregister d st1 =
    (Ok tt,
     with_commands
       (filter (λ n, root_registered_with (heap st) d n = false)
          (_commands st)) st1) ∧
  ((∀ r, r ∈ _commands st → root_registered_with (heap st) d r = false) ↔
   unregister d st1 = (Ok tt, with_commands (_commands st) st1)) ∧
  heap st1 = (heap st ++ [new_command d als nm lc cs a])%list ∧
  _command_table st1 !! d_id d = Some (length (heap st)).
Proof.
  intros Hwf Hnd st1. set (c0 := new_command d als nm lc cs a).
  assert (Hnew : length (heap st) ∉ _commands st).
  { intros Hin. apply (wf_roots _ Hwf) in Hin. lia. }
  assert (Hst1 : heap st1 = (heap st ++ [c0])%list ∧
    (_commands st1 = _commands st ∨
     _commands st1 = (_commands st ++ [length (heap st)])%list)).
  { subst st1. destruct (takes_attributes d) eqn:Hd.
    - rewrite register_root by exact Hd. simpl. unfold set_add.
      rewrite decide_False by exact Hnew. auto.
    - rewrite register_sealed by exact Hd. simpl. auto. }
  destruct Hst1 as [Hheap Hroots].
  assert (Htab : _command_table st1 !! d_id d = Some (length (heap st))).
  { destruct (register_frame d None als nm lc cs a st) as (Ht & _).
    fold st1 in Ht. rewrite Ht. apply lookup_insert_eq. }
  assert (Hold : ∀ r, r ∈ _commands st →
            root_registered_with (heap st1) d r
            = root_registered_with (heap st) d r).
  { intros r Hr. unfold root_registered_with. rewrite Hheap.
    destruct (lookup_lt_is_Some_2 (heap st) r) as [c Hc];
      [now apply (wf_roots _ Hwf)|].
    now rewrite (lookup_app_l_Some _ _ _ _ Hc), Hc. }
  assert (Hfilter :
    filter (λ n, root_registered_with (heap st1) d n = false) (_commands st1)
    = filter (λ n, root_registered_with (heap st) d n = false) (_commands st)).
  { destruct Hroots as [-> | ->].
    - apply filter_ext_elem. intros x Hx. now rewrite Hold.
    - rewrite filter_app, filter_cons_False, filter_nil, app_nil_r.
      + apply filter_ext_elem. intros x Hx. now rewrite Hold.
      + unfold root_registered_with. rewrite Hheap.
        rewrite list_lookup_middle by reflexivity.
        unfold registered_with. simpl. rewrite Nat.eqb_refl. discriminate. }
  assert (E : unregister d st1 =
    (Ok tt,
     with_commands
       (filter (λ n, root_registered_with (heap st) d n = false)
          (_commands st)) st1)).
  { rewrite unregister_exact.
    - now rewrite Hfilter.
    - apply well_formed_register. exact Hwf.
    - destruct Hroots as [-> | ->]; [exact Hnd|].
      apply NoDup_app. repeat split; auto.
      + intros x Hx Hx'. apply list_elem_of_singleton in Hx'. congruence.
      + apply NoDup_singleton. }
  split; [exact E|]. split; [|split; [exact Hheap | exact Htab]].
  rewrite E. split.
  - intros Hfree. now rewrite filter_all.
  - intros [= Hf] r Hr. rewrite <- Hf in Hr.
    now apply list_elem_of_filter in Hr as [? _].
Qed.

End UnregisterRoots.

Lemma unregister_removes_roots_witness :
  unregister d_math cli_math_add_sub =
  (Ok tt, with_commands [] cli_math_add_sub).
Proof.
  apply (unregister_removes_roots cli_math_add_sub d_math).
  - repeat apply well_formed_register. apply well_formed_init.
  - repeat constructor. intros H. inversion H.
Defined.

Lemma unregister_idempotent_witness :
  unregister d_math (snd (unregister d_math cli_math_add_sub)) =
  (Ok tt, snd (unregister d_math cli_math_add_sub)).
Proof.
  apply (unregister_idempotent cli_math_add_sub d_math).
  - repeat apply well_formed_register. apply well_formed_init.
  - repeat constructor. intros H. inversion H.
Defined.

(** [Math] registered a second time and unregistered: the root of the
    first registration is gone as well. *)
Lemma register_unregister_root_witness :
  let st1 := snd (_register_command d_math None None None true true [] cli_math_add) in
  _commands cli_math_add = [0] ∧ _commands st1 = [0; 2] ∧
  unregister d_math st1 = (Ok tt, with_commands [] st1).
Proof.
  split; [reflexivity|]. split; [reflexivity|].
  apply (register_unregister_root cli_math_add d_math None None true true []).
  - repeat apply well_formed_register. apply well_formed_init.
  - repeat constructor. intros H. inversion H.
Defined.

(** ** What the dispatcher leaves alone *)

Section DispatchFrame.

Variable construct : Descriptor → Obj.
Variable call_handler :
  Descriptor → bool → list pyval → list Obj → (pyval + exn) * list Obj.
Variable bind_text : list ParameterSpec → ParameterSpec → string → pyval + exn.

Local Abbreviation get_instance := (get_instance construct).
Local Abbreviation bind_parameters := (bind_parameters construct bind_text).
Local Abbreviation invoke := (invoke construct call_handler bind_text).
Local Abbreviation execute := (execute construct call_handler bind_text).
Local Abbreviation process_input :=
  (process_input construct call_handler bind_text).

Lemma set_instance_idem i c : set_instance i c = set_instance i (set_instance i c).
Proof. reflexivity. Qed.

Lemma same_but_instances_refl st : same_but_instances st st.
Proof.
  repeat split; auto. intros n c Hc. exists c. split; [exact Hc|].
  now destruct c.
Qed.

Lemma same_but_instances_trans st1 st2 st3 :
  same_but_instances st1 st2 → same_but_instances st2 st3 →
  same_but_instances st1 st3.
Proof.
  intros [(Hc1 & Ht1 & Hl1 & Hh1) Hr1] [(Hc2 & Ht2 & Hl2 & Hh2) Hr2].
  repeat split; try congruence.
  intros n c3 Hn3. destruct (Hh2 _ _ Hn3) as (c2 & Hn2 & E2).
  destruct (Hh1 _ _ Hn2) as (c1 & Hn1 & E1).
  exists c1. split; [exact Hn1|]. rewrite E2, E1. reflexivity.
Qed.

Lemma get_instance_frame self st :
  same_but_instances st (snd (get_instance self st)).
Proof.
  unfold get_instance, bind, load.
  destruct (heap st !! self) as [c|] eqn:Hc; [|apply same_but_instances_refl].
  destruct (_command_like_instance c); [apply same_but_instances_refl|].
  unfold get, modify, update. simpl. rewrite Hc. simpl.
  unfold same_but_instances, same_commands. simpl. rewrite length_insert.
  repeat split.
  intros n c' [(<- & <- & _)|[_ Hn]]%list_lookup_insert_Some.
  - exists c. auto.
  - exists c'. split; [exact Hn | now destruct c'].
Qed.

Lemma bind_parameters_frame self all raw ps st :
  same_but_instances st (snd (bind_parameters self all ps raw st)).
Proof.
  revert st. induction ps as [|p ps IH]; intros st; simpl;
    [apply same_but_instances_refl|].
  assert (H : ∀ v st1, same_but_instances st st1 →
            same_but_instances st
              (snd (bind (bind_parameters self all ps raw)
                      (λ vs, ret (v :: vs)) st1))).
  { intros v st1 H1. apply same_but_instances_trans with st1; [exact H1|].
    unfold bind. specialize (IH st1).
    destruct (bind_parameters self all ps raw st1) as [[vs| | |] st2];
      exact IH. }
  unfold bind at 1. destruct (injects_self p).
  - unfold bind at 1. pose proof (get_instance_frame self st) as Hg.
    destruct (get_instance self st) as [[i| | |] st1]; simpl in *; auto.
  - destruct (injects_command_node p);
      [apply H, same_but_instances_refl|].
    destruct (bind_text all p raw) as [v|e];
      [apply H, same_but_instances_refl | apply same_but_instances_refl].
Qed.

Lemma invoke_frame n raw st : same_but_instances st (snd (invoke n raw st)).
Proof.
  unfold invoke, match_arguments. unfold bind at 1. unfold bind at 1.
  unfold load at 1.
  destruct (heap st !! n) as [c|]; [|apply same_but_instances_refl].
  pose proof (bind_parameters_frame n (args c) raw (args c) st) as Hb.
  destruct (bind_parameters n (args c) (args c) raw st) as [[vs| | |] st1];
    simpl in *; auto.
  apply same_but_instances_trans with st1; [exact Hb|].
  unfold bind, load. destruct (heap st1 !! n) as [c'|];
    [|apply same_but_instances_refl].
  destruct (is_class c'); unfold call;
    destruct (call_handler _ _ _ _) as [r os]; simpl;
    apply (same_but_instances_refl st1).
Qed.

Lemma execute_frame fuel n raw st :
  same_but_instances st (snd (execute fuel n raw st)).
Proof.
  revert n raw. induction fuel as [|fuel IH]; intros n raw; simpl;
    [apply same_but_instances_refl|].
  unfold bind at 1, load.
  destruct (heap st !! n) as [c|]; [|apply same_but_instances_refl].
  destruct (Str.split_ws raw) as [[w tl]|]; [|apply invoke_frame].
  unfold bind at 1, get. unfold bind at 1, lift.
  destruct (first_matching _ w _) as [[sub|]| | |];
    auto using same_but_instances_refl, invoke_frame.
Qed.

Lemma process_input_frame raw st :
  same_commands st (snd (process_input raw st)).
Proof.
  unfold process_input.
  destruct (match Str.split_ws raw with
            | Some (hd, tl) => (hd, tl) | None => (raw, EmptyString)
            end) as [w tl].
  unfold bind at 1, get. unfold bind at 1, lift.
  destruct (first_matching _ w _) as [[n|]| | |];
    try apply same_but_instances_refl.
  pose proof (execute_frame (length (heap st)) n tl st) as [He _].
  unfold bind.
  destruct (execute _ n tl st) as [[v| | |] st1]; simpl in *; auto.
Qed.

End DispatchFrame.

(** ** The descent of [execute] *)

Section Resolution.

Variable construct : Descriptor → Obj.
Variable call_handler :
  Descriptor → bool → list pyval → list Obj → (pyval + exn) * list Obj.
Variable bind_text : list ParameterSpec → ParameterSpec → string → pyval + exn.

Local Abbreviation match_arguments := (match_arguments construct bind_text).
Local Abbreviation call := (call call_handler).
Local Abbreviation invoke := (invoke construct call_handler bind_text).
Local Abbreviation execute := (execute construct call_handler bind_text).
Local Abbreviation process_input :=
  (process_input construct call_handler bind_text).

Lemma bind_assoc {A B C} (m : M A) (k : A → M B) (k' : B → M C) st :
  bind (bind m k) k' st = bind m (λ a, bind (k a) k') st.
Proof. unfold bind. now destruct (m st) as [[a| | |] st1]. Qed.

Lemma bind_ext_l {A B} (m m' : M A) (k : A → M B) st :
  m st = m' st → bind m k st = bind m' k st.
Proof. unfold bind. now intros ->. Qed.

Lemma bind_ext_r {A B} (m : M A) (k k' : A → M B) st :
  (∀ a s, k a s = k' a s) → bind m k st = bind m k' st.
Proof. intros H. unfold bind. now destruct (m st) as [[a| | |] st1]. Qed.

(** The binder leaves the command where it is, with its descriptor and its
    kind. *)
Lemma match_arguments_cell n c raw st :
  heap st !! n = Some c →
  ∃ c', heap (snd (match_arguments n raw st)) !! n = Some c' ∧
        command_like c' = command_like c ∧ is_class c' = is_class c.
Proof.
  intros Hc. unfold match_arguments, bind, load. rewrite Hc.
  destruct (bind_parameters_frame construct bind_text n (args c) raw
              (args c) st) as [(_ & _ & Hl & Hh) _].
  set (st1 := snd (bind_parameters construct bind_text n (args c) (args c)
                     raw st)) in *.
  destruct (lookup_lt_is_Some_2 (heap st1) n) as [c1 Hc1];
    [rewrite Hl; eapply lookup_lt_Some; eauto|].
  exists c1. split; [exact Hc1|].
  destruct (Hh _ _ Hc1) as (c0 & Hc0 & ->).
  rewrite Hc in Hc0. injection Hc0 as <-. split; reflexivity.
Qed.

(** Invoking a command: its binder gets the text, and the handler the
    values the binder made of it. *)
Lemma invoke_binds n c raw st :
  heap st !! n = Some c →
  invoke n raw st
  = (args <- match_arguments n raw ;;
     call (command_like c) (is_class c) args) st.
Proof.
  intros Hc. unfold invoke.
  destruct (match_arguments_cell n c raw st Hc) as (c' & Hc' & Hcl & Hic).
  unfold bind at 1 3.
  destruct (match_arguments n raw st) as [[vs| | |] st1]; try reflexivity.
  simpl in Hc'. unfold bind, load. rewrite Hc', Hcl, Hic.
  now destruct (is_class c).
Qed.

(** C8: the descent takes one word of the line per level, as deep as the
    path goes: each word picks, among the subcommands of the command
    reached so far, the first that answers to it.  Where the path ends, at
    a command none of whose subcommands answers to the next word (or with
    no white space left), the tail that is left goes in one piece to the
    binder of that command, and its handler is called on what the binder
    returns.  With no words to follow ([ws = []]) the command itself is the
    one that runs on the whole tail.  [process_input] does the same below
    the root command its leading word picks, and records what the handler
    returned. *)
Theorem execute_resolves (st : CLI) (n : nat) (ws : list string) (t : nat)
    (ct : Command) (tl : string) :
  resolves (heap st) n ws t →
  Forall (λ w, Str.no_space w = true ∧ w ≠ EmptyString) ws →
  Str.starts_clean tl = true →
  stops (heap st) t tl →
  heap st !! t = Some ct →
  (∀ fuel, length ws < fuel →
     execute fuel n (line ws tl) st
     = (args <- match_arguments t tl ;;
        call (command_like ct) (is_class ct) args) st)
  ∧ (∀ w0, well_formed st → Str.no_space w0 = true →
       picks (heap st) w0 (_commands st) n →
       process_input (line (w0 :: ws) tl) st
       = (args <- match_arguments t tl ;;
          r <- call (command_like ct) (is_class ct) args ;;
          modify (with_result r) ;; ret r) st).
Proof.
  intros Hres Hws Htl Hstop Hct.
  assert (Hexec : ∀ fuel, length ws < fuel →
            execute fuel n (line ws tl) st
            = (args <- match_arguments t tl ;;
               call (command_like ct) (is_class ct) args) st).
  { intros fuel Hlen.
    rewrite (execute_line construct call_handler bind_text fuel st n ws t tl)
      by assumption.
    now apply invoke_binds. }
  split; [exact Hexec|].
  intros w0 Hwf Hw0 Hroot. unfold process_input.
  change (line (w0 :: ws) tl) with (w0 ++ " " ++ line ws tl)%string.
  rewrite StrFacts.split_ws_word;
    [|exact Hw0 | now apply line_starts_clean].
  unfold bind at 1, get. unfold bind at 1, lift.
  rewrite (first_matching_picks _ _ _ _ Hroot).
  assert (Hlen : length ws < length (heap st)).
  { apply picks_elem_of in Hroot. apply (wf_roots _ Hwf) in Hroot.
    pose proof (resolves_length st n ws t Hwf Hroot Hres). lia. }
  rewrite (bind_ext_l _ _ _ _ (Hexec (length (heap st)) Hlen)).
  rewrite bind_assoc. apply bind_ext_r. intros vs s.
  apply bind_ext_r. reflexivity.
Qed.

End Resolution.

(** ** The singleton instance, from one execution to the next *)

Section SingletonReuse.

Variable construct : Descriptor → Obj.
Variable call_handler :
  Descriptor → bool → list pyval → list Obj → (pyval + exn) * list Obj.
Variable bind_text : list ParameterSpec → ParameterSpec → string → pyval + exn.

Local Abbreviation constructed := (constructed construct).
Local Abbreviation bound_values := (bound_values bind_text).
Local Abbreviation get_instance := (get_instance construct).
Local Abbreviation bind_parameters := (bind_parameters construct bind_text).
Local Abbreviation call := (call call_handler).
Local Abbreviation invoke := (invoke construct call_handler bind_text).
Local Abbreviation execute := (execute construct call_handler bind_text).
Local Abbreviation process_input :=
  (process_input construct call_handler bind_text).
Local Abbreviation after_lines :=
  (after_lines construct call_handler bind_text).

Lemma keeps_instances_refl st : keeps_instances st st.
Proof. intros n c i Hc _. exact Hc. Qed.

Lemma keeps_instances_trans st1 st2 st3 :
  keeps_instances st1 st2 → keeps_instances st2 st3 →
  keeps_instances st1 st3.
Proof. intros H1 H2 n c i Hc Hi. eauto. Qed.

Lemma get_instance_keeps self st :
  keeps_instances st (snd (get_instance self st)).
Proof.
  unfold get_instance, bind, load.
  destruct (heap st !! self) as [c|] eqn:Hc; [|apply keeps_instances_refl].
  destruct (_command_like_instance c) eqn:Hi; [apply keeps_instances_refl|].
  unfold get, modify, update. simpl. rewrite Hc. simpl.
  intros n c' i Hn Hi'. simpl.
  rewrite list_lookup_insert_ne; [exact Hn|]. congruence.
Qed.

Lemma bind_parameters_keeps self all raw ps st :
  keeps_instances st (snd (bind_parameters self all ps raw st)).
Proof.
  revert st. induction ps as [|p ps IH]; intros st; simpl;
    [apply keeps_instances_refl|].
  assert (H : ∀ v st1, keeps_instances st st1 →
            keeps_instances st
              (snd (bind (bind_parameters self all ps raw)
                      (λ vs, ret (v :: vs)) st1))).
  { intros v st1 H1. apply keeps_instances_trans with st1; [exact H1|].
    unfold bind. specialize (IH st1).
    destruct (bind_parameters self all ps raw st1) as [[vs| | |] st2];
      exact IH. }
  unfold bind at 1. destruct (injects_self p).
  - unfold bind at 1. pose proof (get_instance_keeps self st) as Hg.
    destruct (get_instance self st) as [[i| | |] st1]; simpl in *; auto.
  - destruct (injects_command_node p);
      [apply H, keeps_instances_refl|].
    destruct (bind_text all p raw) as [v|e];
      [apply H, keeps_instances_refl | apply keeps_instances_refl].
Qed.

Lemma invoke_keeps n raw st : keeps_instances st (snd (invoke n raw st)).
Proof.
  unfold invoke, match_arguments. unfold bind at 1. unfold bind at 1.
  unfold load at 1.
  destruct (heap st !! n) as [c|]; [|apply keeps_instances_refl].
  pose proof (bind_parameters_keeps n (args c) raw (args c) st) as Hb.
  destruct (bind_parameters n (args c) (args c) raw st) as [[vs| | |] st1];
    simpl in *; auto.
  apply keeps_instances_trans with st1; [exact Hb|].
  unfold bind, load. destruct (heap st1 !! n) as [c'|];
    [|apply keeps_instances_refl].
  destruct (is_class c'); unfold call;
    destruct (call_handler _ _ _ _) as [r os]; simpl;
    apply (keeps_instances_refl st1).
Qed.

Lemma execute_keeps fuel n raw st :
  keeps_instances st (snd (execute fuel n raw st)).
Proof.
  revert n raw. induction fuel as [|fuel IH]; intros n raw; simpl;
    [apply keeps_instances_refl|].
  unfold bind at 1, load.
  destruct (heap st !! n) as [c|]; [|apply keeps_instances_refl].
  destruct (Str.split_ws raw) as [[w tl]|]; [|apply invoke_keeps].
  unfold bind at 1, get. unfold bind at 1, lift.
  destruct (first_matching _ w _) as [[sub|]| | |];
    auto using keeps_instances_refl, invoke_keeps.
Qed.

Lemma process_input_keeps raw st :
  keeps_instances st (snd (process_input raw st)).
Proof.
  unfold process_input.
  destruct (match Str.split_ws raw with
            | Some (hd, tl) => (hd, tl) | None => (raw, EmptyString)
            end) as [w tl].
  unfold bind at 1, get. unfold bind at 1, lift.
  destruct (first_matching _ w _) as [[n|]| | |];
    try apply keeps_instances_refl.
  pose proof (execute_keeps (length (heap st)) n tl st) as He.
  unfold bind.
  destruct (execute _ n tl st) as [[v| | |] st1]; simpl in *; auto.
Qed.

(** Whatever lines are processed, a command that has its instance keeps
    it. *)
Lemma after_lines_keeps ls st : keeps_instances st (after_lines ls st).
Proof.
  revert st. induction ls as [|l ls IH]; intros st;
    [apply keeps_instances_refl|].
  apply keeps_instances_trans with (snd (process_input l st));
    [apply process_input_keeps | apply IH].
Qed.

(** Without a parameter marked [injects_self] the binder does not touch
    the state. *)
Lemma bind_parameters_no_self st self i all raw ps :
  existsb injects_self ps = false →
  bind_parameters self all ps raw st =
  (match bound_values i self all ps raw with
   | inl vs => Ok vs
   | inr e => Raise e
   end, st).
Proof.
  induction ps as [|p ps IH]; simpl; [reflexivity|].
  intros [Hp Hps]%orb_false_iff. rewrite Hp. specialize (IH Hps).
  unfold bind at 1.
  destruct (injects_command_node p).
  - unfold ret at 1. unfold bind. rewrite IH.
    now destruct (bound_values i self all ps raw).
  - destruct (bind_text all p raw) as [v|e]; [|reflexivity].
    unfold ret at 1. unfold bind. rewrite IH.
    now destruct (bound_values i self all ps raw).
Qed.


End SingletonReuse.


Lemma well_formed_cli_tree : well_formed cli_tree.
Proof. repeat apply well_formed_register. apply well_formed_init. Qed.

(** On the tree [root → {a, x}], [a → b → c]: the whole chain; a word
    that no subcommand of [a] answers to; and [x], which the iteration
    reaches after [a]. *)
Lemma execute_resolves_witness :
  let run := process_input construct_counter handler_counter bind_whole in
  (resolves (heap cli_tree) 0 ["a"; "b"; "c"] 3 ∧
   run "root a b c rest" cli_tree
   = (Ok (VStr "rest"), with_result (VStr "rest") cli_tree)) ∧
  (stops (heap cli_tree) 1 "zzz rest" ∧
   Str.split_ws "zzz rest" = Some ("zzz", "rest") ∧
   (__subcommands__ <$> heap cli_tree !! 1) = Some [2] ∧
   run "root a zzz rest" cli_tree
   = (Ok (VStr "zzz rest"), with_result (VStr "zzz rest") cli_tree)) ∧
  (picks (heap cli_tree) "x" [1; 4] 4 ∧
   run "root x b c rest" cli_tree
   = (Ok (VStr "b c rest"), with_result (VStr "b c rest") cli_tree)).
Proof.
  assert (Hroot : picks (heap cli_tree) "root" (_commands cli_tree) 0).
  { exists [], [], (set_subcommands [1; 4]
                      (new_command d_root None None true true [p_text])).
    repeat split. constructor. }
  assert (Hno : ∀ w k c, heap cli_tree !! k = Some c → matches c w = false →
            unmatched (heap cli_tree) w [k]).
  { intros w k c Hk Hm. repeat constructor. eauto. }
  assert (Hpick : ∀ w k c l, heap cli_tree !! k = Some c →
            matches c w = true → picks (heap cli_tree) w (k :: l) k).
  { intros w k c l Hk Hm. exists [], l, c. repeat split; auto. constructor. }
  assert (Hx : picks (heap cli_tree) "x" [1; 4] 4).
  { eexists [1], [], _. split; [reflexivity|]. split; [|split; reflexivity].
    eapply Hno; reflexivity. }
  assert (Hclean : ∀ ws, Forall (λ w, Str.no_space w = true) ws →
            Forall (λ w, w ≠ EmptyString) ws →
            Forall (λ w, Str.no_space w = true ∧ w ≠ EmptyString) ws).
  { intros ws H1 H2. apply Forall_and. auto. }
  intros run. split; [|split].
  - assert (Hres : resolves (heap cli_tree) 0 ["a"; "b"; "c"] 3).
    { eapply resolves_down; [reflexivity | eapply Hpick; reflexivity |].
      eapply resolves_down; [reflexivity | eapply Hpick; reflexivity |].
      eapply resolves_down; [reflexivity | eapply Hpick; reflexivity |].
      apply resolves_here. }
    split; [exact Hres|].
    destruct (execute_resolves construct_counter handler_counter bind_whole
                cli_tree 0 ["a"; "b"; "c"] 3
                (set___parent__ (Some 2)
                   (new_command d_c None None true true [p_text])) "rest" Hres)
      as [_ Hproc].
    + apply Hclean; repeat constructor; discriminate.
    + reflexivity.
    + eexists. split; [reflexivity | exact I].
    + reflexivity.
    + subst run.
      etransitivity;
        [exact (Hproc "root" well_formed_cli_tree eq_refl Hroot)|].
      reflexivity.
  - assert (Hstop : stops (heap cli_tree) 1 "zzz rest").
    { eexists. split; [reflexivity|]. eapply Hno; reflexivity. }
    split; [exact Hstop|]. split; [reflexivity|]. split; [reflexivity|].
    destruct (execute_resolves construct_counter handler_counter bind_whole
                cli_tree 0 ["a"] 1
                (set_subcommands [2] (set___parent__ (Some 0)
                   (new_command d_a None None true true [p_text])))
                "zzz rest")
      as [_ Hproc].
    + eapply resolves_down; [reflexivity | eapply Hpick; reflexivity |].
      apply resolves_here.
    + apply Hclean; repeat constructor; discriminate.
    + reflexivity.
    + exact Hstop.
    + reflexivity.
    + subst run.
      etransitivity;
        [exact (Hproc "root" well_formed_cli_tree eq_refl Hroot)|].
      reflexivity.
  - split; [exact Hx|].
    destruct (execute_resolves construct_counter handler_counter bind_whole
                cli_tree 0 ["x"] 4
                (set___parent__ (Some 0)
                   (new_command d_x None None true true [p_text]))
                "b c rest")
      as [_ Hproc].
    + eapply resolves_down; [reflexivity | exact Hx | apply resolves_here].
    + apply Hclean; repeat constructor; discriminate.
    + reflexivity.
    + eexists. split; [reflexivity|]. constructor.
    + reflexivity.
    + subst run.
      etransitivity;
        [exact (Hproc "root" well_formed_cli_tree eq_refl Hroot)|].
      reflexivity.
Defined.

(** ** Registering, then dispatching *)

Section RegisterDispatch.

Variable construct : Descriptor → Obj.
Variable call_handler :
  Descriptor → bool → list pyval → list Obj → (pyval + exn) * list Obj.
Variable bind_text : list ParameterSpec → ParameterSpec → string → pyval + exn.

Local Abbreviation invoke := (invoke construct call_handler bind_text).
Local Abbreviation execute := (execute construct call_handler bind_text).
Local Abbreviation process_input :=
  (process_input construct call_handler bind_text).
Local Abbreviation process := (process construct call_handler bind_text).
Local Abbreviation run_root := (run_root construct call_handler bind_text).

(** Once the root is found, [process_input] is [run_root]. *)
Lemma process_input_root raw st n :
  first_matching (heap st) (leading_token raw) (_commands st) = Ok (Some n) →
  process_input raw st
  = (r <- execute (length (heap st)) n (rest_of raw) ;;
     modify (with_result r) ;; st' <- get ;; ret (result st'))%cli st.
Proof.
  intros Hf. unfold process_input, leading_token, rest_of in *.
  destruct (Str.split_ws raw) as [[hd tl]|];
    unfold bind at 1, get; unfold bind at 1, lift; now rewrite Hf.
Qed.

Lemma execute_leaf fuel n c raw st :
  heap st !! n = Some c → __subcommands__ c = [] →
  execute (S fuel) n raw st = invoke n raw st.
Proof.
  intros Hc Hs. apply execute_stop. exists c. split; [exact Hc|].
  rewrite Hs. destruct (Str.split_ws raw) as [[? ?]|]; [constructor | exact I].
Qed.

(** A command registered as a root (the registration of a function, a
    class or a wrapper, which goes through) answers to every line whose
    leading token it matches and no older root matches: it is invoked on
    the rest of the line. *)
Theorem registered_root_dispatches (st : CLI) (d : Descriptor)
    (als : option (list string)) (nm : option string) (lc cs : bool)
    (a : list ParameterSpec) (raw : string) :
  well_formed st → takes_attributes d = true →
  Forall (λ r, ∃ c, heap st !! r = Some c ∧
                    matches c (leading_token raw) = false) (_commands st) →
  matches (new_command d als nm lc cs a) (leading_token raw) = true →
  let st1 := snd (_register_command d None als nm lc cs a st) in
  process_input raw st1 = run_root (length (heap st)) (rest_of raw) st1.
Proof.
  intros Hwf Hd Hold Hnew st1.
  assert (Hfresh : length (heap st) ∉ _commands st).
  { intros Hin. apply (wf_roots _ Hwf) in Hin. lia. }
  assert (Hst1 : st1 = with_commands (_commands st ++ [length (heap st)])
                         (recorded d (new_command d als nm lc cs a) st)).
  { subst st1. rewrite register_root by exact Hd. simpl. unfold set_add.
    now rewrite decide_False. }
  rewrite (process_input_root raw st1 (length (heap st))).
  - unfold run_root.
    replace (length (heap st1)) with (S (length (heap st)))
      by (rewrite Hst1; simpl; rewrite length_app; simpl; lia).
    unfold bind at 1. unfold bind at 3.
    rewrite (execute_leaf _ _ (new_command d als nm lc cs a)); auto.
    rewrite Hst1. simpl. now apply list_lookup_middle.
  - rewrite Hst1. simpl. rewrite first_matching_skip.
    + simpl. rewrite list_lookup_middle by reflexivity. now rewrite Hnew.
    + eapply Forall_impl; [exact Hold|]. intros r (c & Hc & Hm).
      exists c. split; [now apply lookup_app_l_Some | exact Hm].
Qed.

Lemma matches_set___parent__ p c w : matches (set___parent__ p c) w = matches c w.
Proof. reflexivity. Qed.

(** A command registered under a parent (the registration of a function,
    a class or a wrapper) answers to its word below that parent, when no
    older subcommand of the parent matches the word: the parent hands over
    the tail after the word and the blank run. *)
Theorem registered_subcommand_dispatches (st : CLI) (d : Descriptor)
    (p : Identifier) (cp : nat) (pc : Command) (als : option (list string))
    (nm : option string) (lc cs : bool) (a : list ParameterSpec)
    (w tl : string) (fuel : nat) :
  well_formed st → takes_attributes d = true →
  find_command st p = Ok (Some cp) → heap st !! cp = Some pc →
  Forall (λ k, ∃ c, heap st !! k = Some c ∧ matches c w = false)
         (__subcommands__ pc) →
  matches (new_command d als nm lc cs a) w = true →
  Str.no_space w = true → Str.starts_clean tl = true →
  let st1 := snd (_register_command d (Some p) als nm lc cs a st) in
  execute (S (S fuel)) cp (w ++ " " ++ tl) st1
  = invoke (length (heap st)) tl st1.
Proof.
  intros Hwf Hd Hf Hpc Hold Hnew Hw Htl st1.
  pose proof (lookup_lt_Some _ _ _ Hpc) as Hlt.
  set (c0 := new_command d als nm lc cs a) in *.
  set (new := length (heap st)) in *.
  assert (Hfresh : new ∉ __subcommands__ pc).
  { intros Hin. pose proof (wf_ordered _ Hwf _ _ Hpc _ Hin). lia. }
  assert (Hheap : heap st1 =
            <[new := set___parent__ (Some cp) c0]>
              (<[cp := set_subcommands (__subcommands__ pc ++ [new]) pc]>
                 (heap st ++ [c0])%list)).
  { subst st1.
    destruct (register_cases d (Some p) als nm lc cs a st Hwf)
      as [?|? ?|q ? ? Hq|q cq pq ? Hp' Hq Hcq _]; fold c0;
      try discriminate; try congruence.
    - injection Hp' as <-. rewrite Hf in Hq. injection Hq as <-.
      rewrite Hpc in Hcq. injection Hcq as <-. simpl.
      unfold set_add. now rewrite decide_False. }
  assert (Hcp : heap st1 !! cp
                = Some (set_subcommands (__subcommands__ pc ++ [new]) pc)).
  { rewrite Hheap, list_lookup_insert_ne by (subst new; lia).
    apply list_lookup_insert_eq. rewrite length_app. simpl. lia. }
  assert (Hn : heap st1 !! new = Some (set___parent__ (Some cp) c0)).
  { rewrite Hheap. apply list_lookup_insert_eq.
    rewrite length_insert, length_app. simpl. subst new. lia. }
  rewrite (execute_descend _ _ _ (S fuel) cp _ w tl new _ _ Hcp).
  - apply (execute_leaf fuel new _ tl st1 Hn). reflexivity.
  - now apply StrFacts.split_ws_word.
  - simpl. rewrite first_matching_skip.
    + simpl. rewrite Hn, matches_set___parent__. now rewrite Hnew.
    + rewrite Forall_forall in Hold. apply Forall_forall. intros k Hk.
      destruct (Hold k Hk) as (c & Hc & Hm). exists c. split; [|exact Hm].
      pose proof (wf_ordered _ Hwf _ _ Hpc _ Hk).
      rewrite Hheap, !list_lookup_insert_ne by (subst new; lia).
      now apply lookup_app_l_Some.
Qed.

(** A word at the end of the line, with no white space after it, is not
    looked up among the subcommands: the root command is invoked on it,
    also when one of its subcommands matches the word. *)
Theorem trailing_word_is_argument (st : CLI) (n : nat) (w0 w : string) :
  first_matching (heap st) w0 (_commands st) = Ok (Some n) →
  Str.no_space w0 = true → Str.no_space w = true →
  process_input (w0 ++ " " ++ w) st = run_root n w st.
Proof.
  intros Hf Hw0 Hw.
  pose proof (StrFacts.split_ws_word w0 w Hw0
                (StrFacts.no_space_starts_clean w Hw)) as Hs.
  rewrite (process_input_root _ st n);
    [|unfold leading_token; now rewrite Hs].
  unfold rest_of. rewrite Hs. unfold run_root.
  apply first_matching_some in Hf as (_ & c & Hc & _).
  pose proof (lookup_lt_Some _ _ _ Hc) as Hlt.
  destruct (length (heap st)) as [|fuel] eqn:Hlen; [lia|].
  unfold bind at 1. unfold bind at 3.
  rewrite execute_stop; [reflexivity|].
  exists c. split; [exact Hc|]. now rewrite StrFacts.split_ws_no_space.
Qed.

Lemma lower_empty s : Str.lower s = EmptyString → s = EmptyString.
Proof. destruct s; [reflexivity | discriminate]. Qed.

Lemma matches_empty c : matches c EmptyString = true → EmptyString ∈ _aliases c.
Proof.
  intros (alias & Hin & H)%matches_iff. unfold folded in H.
  assert (alias = EmptyString) as ->; [|exact Hin].
  destruct (lowercase c), H as [[_ H]|H]; simpl in H;
    auto using lower_empty.
Qed.

Lemma leading_token_blank raw :
  Str.starts_clean raw = false → leading_token raw = EmptyString.
Proof.
  unfold leading_token. destruct raw as [|ch raw]; simpl; [discriminate|].
  intros H%negb_false_iff. now rewrite H.
Qed.

(** The empty line, and a line that starts with white space, have the
    empty string as their leading token: unless a root command carries an
    empty alias, [process_input] returns [None] and changes nothing. *)
Theorem blank_start_unmatched (st : CLI) (raw : string) :
  raw = EmptyString ∨ Str.starts_clean raw = false →
  Forall (λ r, ∃ c, heap st !! r = Some c ∧ EmptyString ∉ _aliases c)
         (_commands st) →
  process_input raw st = (Ok VNone, st).
Proof.
  intros Hraw Hroots.
  assert (Ht : leading_token raw = EmptyString).
  { destruct Hraw as [->|H]; [reflexivity | now apply leading_token_blank]. }
  assert (Hf : first_matching (heap st) (leading_token raw) (_commands st)
               = Ok None).
  { rewrite Ht. apply first_matching_none.
    eapply Forall_impl; [exact Hroots|]. intros r (c & Hc & Hno).
    exists c. split; [exact Hc|]. apply not_true_is_false.
    intros H. now apply matches_empty in H. }
  unfold process_input, leading_token in *.
  destruct (Str.split_ws raw) as [[hd tl]|];
    unfold bind, get, lift; simpl; now rewrite Hf.
Qed.

(** When the leading token picks a root command, [process_input] returns
    what the execution of that command on the rest of the line returns,
    and leaves it in [result]; when the execution raises, the exception
    goes through and [result] keeps its value.  [process] does the same
    and returns the line instead of the result. *)
Theorem process_input_records_result (st : CLI) (raw : string) (n : nat) :
  well_formed st →
  picks (heap st) (leading_token raw) (_commands st) n →
  let '(r, st1) := execute (length (heap st)) n (rest_of raw) st in
  match r with
  | Ok v =>
      process_input raw st = (Ok v, with_result v st1) ∧
      process raw st = (Ok (VStr raw), with_result v st1)
  | Raise e =>
      process_input raw st = (Raise e, st1) ∧
      process raw st = (Raise e, st1) ∧ result st1 = result st
  | OutOfFuel | Dangling => False
  end.
Proof.
  intros Hwf Hpick.
  pose proof (picks_elem_of _ _ _ _ Hpick) as Hin.
  apply (wf_roots _ Hwf) in Hin.
  pose proof (execute_defined construct call_handler bind_text st
                (length (heap st)) n (rest_of raw) Hwf Hin) as Hdef.
  pose proof (execute_frame construct call_handler bind_text
                (length (heap st)) n (rest_of raw) st) as [_ Hres].
  pose proof (process_input_root raw st n
                (first_matching_picks _ _ _ _ Hpick)) as Hp.
  unfold bind in Hp.
  destruct (execute _ n (rest_of raw) st) as [[v|e| |] st1];
    simpl in Hdef, Hres, Hp;
    try (apply Hdef; lia);
    unfold process, bind; rewrite Hp; auto.
Qed.

End RegisterDispatch.

Lemma registered_root_dispatches_witness :
  let st1 := snd (_register_command d_counter None None None true true [p_self]
                    cli_math) in
  process_input construct_counter handler_counter bind_whole "COUNTER  now" st1
  = run_root construct_counter handler_counter bind_whole 1 "now" st1.
Proof.
  apply (registered_root_dispatches construct_counter handler_counter bind_whole
           cli_math d_counter None None true true [p_self] "COUNTER  now").
  - apply well_formed_cli_math.
  - reflexivity.
  - repeat constructor. eexists. split; reflexivity.
  - reflexivity.
Defined.

Lemma registered_subcommand_dispatches_witness :
  execute construct_counter handler_counter bind_whole 2 0 "add 5 4"
    cli_math_add
  = invoke construct_counter handler_counter bind_whole 1 "5 4" cli_math_add.
Proof.
  apply (registered_subcommand_dispatches construct_counter handler_counter
           bind_whole cli_math d_add (ByObject d_math) 0
           (new_command d_math None None true true [])
           None None true true [] "add" "5 4" 0).
  - apply well_formed_cli_math.
  - reflexivity.
  - reflexivity.
  - reflexivity.
  - constructor.
  - reflexivity.
  - reflexivity.
  - reflexivity.
Defined.

Lemma trailing_word_is_argument_witness :
  (flip matches "add" <$> heap cli_math_add !! 1) = Some true ∧
  process_input construct_counter handler_counter bind_whole "math add"
    cli_math_add
  = run_root construct_counter handler_counter bind_whole 0 "add" cli_math_add.
Proof.
  split; [reflexivity|].
  apply (trailing_word_is_argument construct_counter handler_counter bind_whole
           cli_math_add 0 "math" "add"); reflexivity.
Defined.

Lemma blank_start_unmatched_witness :
  process_input construct_counter handler_counter bind_whole " math" cli_math
  = (Ok VNone, cli_math).
Proof.
  apply (blank_start_unmatched construct_counter handler_counter bind_whole
           cli_math " math").
  - right. reflexivity.
  - repeat constructor. eexists. split; [reflexivity|].
    intros H. apply list_elem_of_singleton in H. discriminate.
Defined.

Lemma process_input_records_result_witness :
  let st1 := snd (execute construct_counter handler_counter bind_whole 1 0
                    EmptyString cli_counter) in
  fst (execute construct_counter handler_counter bind_whole 1 0 EmptyString
         cli_counter) = Ok (VInt 1) ∧
  process_input construct_counter handler_counter bind_whole "counter"
    cli_counter = (Ok (VInt 1), with_result (VInt 1) st1) ∧
  process construct_counter handler_counter bind_whole "counter" cli_counter
    = (Ok (VStr "counter"), with_result (VInt 1) st1).
Proof.
  split; [reflexivity|].
  apply (process_input_records_result construct_counter handler_counter
           bind_whole cli_counter "counter" 0).
  - apply well_formed_register, well_formed_init.
  - exists [], [], (new_command d_counter None None true true [p_self]).
    repeat split. constructor.
Defined.

(** ** Cutting a line at its first run of white space *)

Section Splitting.
Import Str.

Lemma skip_spaces_decompose s :
  ∃ run, s = (run ++ skip_spaces s)%string ∧ all_space run = true ∧
         starts_clean (skip_spaces s) = true.
Proof.
  induction s as [|c s (run & E & Hr & Hc)]; [exists EmptyString; auto|].
  simpl. destruct (is_space c) eqn:Hsp.
  - exists (String c run). simpl. rewrite Hsp, Hr.
    split; [|auto].
    change (String c s = String c (run +:+ skip_spaces s)). now rewrite <- E.
  - exists EmptyString. simpl. now rewrite Hsp.
Qed.

(** The search for [\s+] cuts the line into the text before the first
    white space, which holds none, a run of white space that is not
    empty, and the tail, which does not start with white space; the three
    put together are the line.  The search fails on the lines without
    white space. *)
Theorem split_ws_decompose (s : string) :
  match split_ws s with
  | Some (hd, tl) =>
      ∃ run, s = (hd ++ run ++ tl)%string ∧ no_space hd = true ∧
             run ≠ EmptyString ∧ all_space run = true ∧
             starts_clean tl = true
  | None => no_space s = true
  end.
Proof.
  induction s as [|c s IH]; simpl; [reflexivity|].
  destruct (is_space c) eqn:Hsp.
  - destruct (skip_spaces_decompose s) as (run & E & Hr & Hc).
    exists (String c run). simpl. rewrite Hsp, Hr.
    split; [|repeat split; auto; discriminate].
    change (String c s = String c (run +:+ skip_spaces s)). now rewrite <- E.
  - destruct (split_ws s) as [[hd tl]|].
    + destruct IH as (run & E & Hhd & Hne & Hr & Hc).
      exists run. simpl. rewrite Hsp, Hhd. split; [|repeat split; auto].
      change (String c s = String c (hd +:+ run +:+ tl)). now rewrite <- E.
    + simpl. exact IH.
Qed.

End Splitting.

(** ** One instance for each command *)

Section Instances.

Variable construct : Descriptor → Obj.

Local Abbreviation get_instance := (get_instance construct).
Local Abbreviation constructed := (constructed construct).


End Instances.


(** ** The commands form a forest *)

Section Forest.

Lemma NoDup_set_add x s : NoDup s → NoDup (set_add x s).
Proof.
  intros Hs. unfold set_add. case_decide; [exact Hs|].
  apply NoDup_app. repeat split; auto.
  - intros y Hy Hy'. apply list_elem_of_singleton in Hy'. congruence.
  - apply NoDup_singleton.
Qed.

Lemma forest_init : forest CLI_init.
Proof.
  split; simpl.
  - constructor.
  - intros p c Hp. inversion Hp.
  - intros p c k Hp. inversion Hp.
  - intros k ck p Hk. inversion Hk.
Qed.

(** The state with the new object stored and nothing attached. *)
Lemma forest_indexed d c0 st roots :
  well_formed st → forest st →
  __subcommands__ c0 = [] → __parent__ c0 = None →
  NoDup roots → (∀ r, r ∈ roots → r ∈ _commands st ∨ r = length (heap st)) →
  forest (with_commands roots (indexed d c0 st)).
Proof.
  intros Hwf [Fr Fs Fc Fb] Hs Hp Hnd Hroots. split; simpl.
  - exact Hnd.
  - intros p c [[_ Hc]|[_ <-]]%lookup_snoc_Some; [eauto|].
    rewrite Hs. constructor.
  - intros p c k [[_ Hc]|[_ <-]]%lookup_snoc_Some Hk;
      [|rewrite Hs in Hk; inversion Hk].
    destruct (Fc _ _ _ Hc Hk) as (ck & Hck & Hpar & Hnr).
    exists ck. split; [now apply lookup_app_l_Some|]. split; [exact Hpar|].
    intros [Hin| ->]%Hroots; [contradiction|].
    apply lookup_lt_Some in Hck. lia.
  - intros k ck p [[_ Hk]|[_ <-]]%lookup_snoc_Some Hpar; [|congruence].
    destruct (Fb _ _ _ Hk Hpar) as (c & Hc & Hin).
    exists c. split; [now apply lookup_app_l_Some | exact Hin].
Qed.

Lemma forest_recorded d c0 st roots :
  well_formed st → forest st →
  __subcommands__ c0 = [] → __parent__ c0 = None →
  NoDup roots → (∀ r, r ∈ roots → r ∈ _commands st ∨ r = length (heap st)) →
  forest (with_commands roots (recorded d c0 st)).
Proof.
  intros Hwf Hf Hs Hp Hnd Hroots.
  destruct (forest_indexed d c0 st roots Hwf Hf Hs Hp Hnd Hroots)
    as [Fr Fs Fc Fb].
  split; assumption.
Qed.

Lemma forest_register d parent als nm lc cs a st :
  well_formed st → forest st →
  forest (snd (_register_command d parent als nm lc cs a st)).
Proof.
  intros Hwf Hf. set (c0 := new_command d als nm lc cs a).
  destruct (register_cases d parent als nm lc cs a st Hwf)
    as [_|_ _|p _ _ _|p cp pc _ _ _ Hpc _]; fold c0; simpl snd.
  - rewrite <- (with_commands_id (indexed d c0 st)).
    apply (forest_indexed d c0 st _ Hwf Hf eq_refl eq_refl).
    + simpl. apply Hf.
    + simpl. auto.
  - apply forest_recorded; auto.
    + apply NoDup_set_add, Hf.
    + intros r Hr. now apply elem_of_set_add in Hr.
  - rewrite <- (with_commands_id (recorded d c0 st)).
    apply (forest_recorded d c0 st _ Hwf Hf eq_refl eq_refl).
    + simpl. apply Hf.
    + simpl. auto.
  - pose proof (lookup_lt_Some _ _ _ Hpc) as Hlt.
    pose proof (forest_recorded d c0 st (_commands st) Hwf Hf eq_refl eq_refl
                  (forest_roots _ Hf) (λ r H, or_introl H)) as Hrec.
    change (forest (recorded d c0 st)) in Hrec.
    destruct Hrec as [Fr Fs Fc Fb]. simpl in Fr, Fs, Fc, Fb.
    set (new := length (heap st)) in *.
    set (pc' := set_subcommands (set_add new (__subcommands__ pc)) pc).
    set (c0' := set___parent__ (Some cp) c0).
    assert (Hpc1 : (heap st ++ [c0])%list !! cp = Some pc)
      by now apply lookup_app_l_Some.
    assert (Hlook : ∀ n c,
      <[new := c0']> (<[cp := pc']> (heap st ++ [c0])%list) !! n = Some c →
      (n = new ∧ c = c0') ∨ (n = cp ∧ n ≠ new ∧ c = pc') ∨
      (n ≠ new ∧ n ≠ cp ∧ (heap st ++ [c0])%list !! n = Some c)).
    { intros n c [(<- & <- & _)|[Hn1 Hn]]%list_lookup_insert_Some; [auto|].
      apply list_lookup_insert_Some in Hn as [(<- & <- & _)|[Hn2 Hn]];
        [right; left; auto | right; right; auto]. }
    assert (Hget_new :
      <[new := c0']> (<[cp := pc']> (heap st ++ [c0])%list) !! new = Some c0').
    { apply list_lookup_insert_eq. rewrite length_insert, length_app. simpl.
      subst new. lia. }
    assert (Hget_cp :
      <[new := c0']> (<[cp := pc']> (heap st ++ [c0])%list) !! cp = Some pc').
    { rewrite list_lookup_insert_ne by (subst new; lia).
      apply list_lookup_insert_eq. rewrite length_app. simpl. lia. }
    assert (Hget_old : ∀ n c, n ≠ new → n ≠ cp →
      (heap st ++ [c0])%list !! n = Some c →
      <[new := c0']> (<[cp := pc']> (heap st ++ [c0])%list) !! n = Some c).
    { intros n c H1 H2 Hn. now rewrite !list_lookup_insert_ne by auto. }
    assert (Hord : ∀ k, k ∈ __subcommands__ pc → cp < k < new).
    { intros k Hk. apply (wf_ordered _ Hwf _ _ Hpc _ Hk). }
    split; simpl.
    + exact Fr.
    + intros n c [(_ & ->)|[(_ & _ & ->)|(_ & _ & Hn)]]%Hlook; simpl.
      * constructor.
      * apply NoDup_set_add. eauto.
      * eauto.
    + intros n c k [(_ & ->)|[(-> & _ & ->)|(Hn1 & Hn2 & Hn)]]%Hlook Hk;
        simpl in Hk.
      * inversion Hk.
      * apply elem_of_set_add in Hk as [Hk| ->].
        -- destruct (Fc _ _ _ Hpc1 Hk) as (ck & Hck & Hpar & Hnr).
           specialize (Hord k Hk). exists ck.
           split; [apply Hget_old; auto; lia | auto].
        -- exists c0'. split; [exact Hget_new|]. split; [reflexivity|].
           intros Hin. apply (wf_roots _ Hwf) in Hin. subst new. lia.
      * destruct (Fc _ _ _ Hn Hk) as (ck & Hck & Hpar & Hnr).
        assert (k ≠ new).
        { intros ->. apply lookup_snoc_Some in Hck as [[? _]|[_ <-]];
            [subst new; lia | discriminate]. }
        destruct (decide (k = cp)) as [->|Hkcp].
        -- exists pc'. split; [exact Hget_cp|]. split; [|exact Hnr].
           rewrite Hpc1 in Hck. injection Hck as <-. exact Hpar.
        -- exists ck. split; [now apply Hget_old | auto].
    + intros k ck q [(-> & ->)|[(-> & _ & ->)|(Hk1 & Hk2 & Hk)]]%Hlook Hpar;
        simpl in Hpar.
      * injection Hpar as <-. exists pc'. split; [exact Hget_cp|].
        simpl. apply elem_of_set_add. now right.
      * destruct (Fb _ _ _ Hpc1 Hpar) as (c & Hc & Hin).
        assert (q ≠ new).
        { intros ->. apply lookup_snoc_Some in Hc as [[? _]|[_ <-]];
            [subst new; lia | inversion Hin]. }
        assert (q ≠ cp).
        { intros ->. rewrite Hpc1 in Hc. injection Hc as <-.
          specialize (Hord cp Hin). lia. }
        exists c. split; [now apply Hget_old | exact Hin].
      * destruct (Fb _ _ _ Hk Hpar) as (c & Hc & Hin).
        assert (q ≠ new).
        { intros ->. apply lookup_snoc_Some in Hc as [[? _]|[_ <-]];
            [subst new; lia | inversion Hin]. }
        destruct (decide (q = cp)) as [->|Hq].
        -- exists pc'. split; [exact Hget_cp|]. simpl.
           rewrite Hpc1 in Hc. injection Hc as <-.
           apply elem_of_set_add. now left.
        -- exists c. split; [now apply Hget_old | exact Hin].
Qed.

Lemma forest_unregister d st :
  well_formed st → forest st → forest (snd (unregister d st)).
Proof.
  intros Hwf [Fr Fs Fc Fb]. rewrite (unregister_exact d st Hwf Fr).
  split; simpl; auto.
  - now apply NoDup_filter.
  - intros p c k Hp Hk. destruct (Fc _ _ _ Hp Hk) as (ck & Hck & Hpar & Hnr).
    exists ck. repeat split; auto.
    intros Hin. now apply list_elem_of_filter in Hin as [_ ?].
Qed.

Lemma forest_same_commands st st' :
  same_commands st st' → forest st → forest st'.
Proof.
  intros (Hc & Ht & Hl & Hh) [Fr Fs Fc Fb].
  assert (Hfwd : ∀ n c, heap st !! n = Some c →
            ∃ c', heap st' !! n = Some c' ∧
                  c' = set_instance (_command_like_instance c') c).
  { intros n c Hn. destruct (lookup_lt_is_Some_2 (heap st') n) as [c' Hc'];
      [rewrite Hl; eapply lookup_lt_Some; eauto|].
    exists c'. split; [exact Hc'|].
    destruct (Hh _ _ Hc') as (c2 & Hc2 & E). congruence. }
  split; rewrite ?Hc.
  - exact Fr.
  - intros p c' Hp. destruct (Hh _ _ Hp) as (c & Hcp & ->). simpl. eauto.
  - intros p c' k Hp Hk. destruct (Hh _ _ Hp) as (c & Hcp & E).
    rewrite E in Hk. simpl in Hk.
    destruct (Fc _ _ _ Hcp Hk) as (ck & Hck & Hpar & Hnr).
    destruct (Hfwd _ _ Hck) as (ck' & Hck' & E').
    exists ck'. split; [exact Hck'|]. split; [|exact Hnr].
    rewrite E'. exact Hpar.
  - intros k ck' q Hk Hpar. destruct (Hh _ _ Hk) as (ck & Hck & E).
    rewrite E in Hpar. simpl in Hpar.
    destruct (Fb _ _ _ Hck Hpar) as (c & Hcq & Hin).
    destruct (Hfwd _ _ Hcq) as (c' & Hc' & E').
    exists c'. split; [exact Hc'|]. rewrite E'. exact Hin.
Qed.

Lemma api_state_forest st : api_state st → forest st.
Proof.
  induction 1 as [|st ? ? ? ? ? ? ? Hst IH|st ? Hst IH|st ? ? ? ? Hst IH].
  - apply forest_init.
  - apply forest_register; [now apply api_state_well_formed | exact IH].
  - apply forest_unregister; [now apply api_state_well_formed | exact IH].
  - eapply forest_same_commands; [apply process_input_frame | exact IH].
Qed.



End Forest.

Lemma api_state_cli_math_add_sub : api_state cli_math_add_sub.
Proof. repeat apply api_register. apply api_init. Qed.



(** ** The decorators *)

Section DecoratorFacts.

Variable signature : Descriptor → list ParameterSpec.
Variable given_args : Descriptor → list ParameterSpec → list ParameterSpec.

Local Abbreviation register_call := (register_call signature given_args).
Local Abbreviation command_call := (command_call signature given_args).
Local Abbreviation subcommand_call := (subcommand_call signature given_args).
Local Abbreviation cli_command := (cli_command signature given_args).
Local Abbreviation cli_subcommand := (cli_subcommand signature given_args).

Lemma bind_call_no_keywords params pos :
  length pos ≤ length params →
  bind_call params pos ∅ = Some (imap (λ i _, pos !! i) params).
Proof.
  intros Hle. unfold bind_call.
  rewrite decide_False by lia.
  rewrite decide_True by apply map_Forall_empty.
  f_equal. apply imap_ext. intros i p _.
  destruct (pos !! i); [reflexivity | apply lookup_empty].
Qed.

(** The decorator used bare, [@cli.command] above a function or a class,
    is the call [cli.command(f)]: it registers the object at once as a root
    command, under its own name and with the default options, and gives the
    object back.  So does a call with a function or class in the first
    place, as in [@cli.command(Math)] above a function: it is [Math] that
    is registered, and what comes back is no decorator.  On a bound method
    the call raises the [AttributeError] of [__boundcommand__]: the new
    object is in the index and no root is added. *)
Theorem bare_command_registers (f : Descriptor) (st : CLI) :
  let c := new_command f None None true true (signature f) in
  cli_command [AObj f] ∅ st
  = if takes_attributes f
    then (Returned (DValue (VDescriptor f)),
          with_commands (set_add (length (heap st)) (_commands st))
            (recorded f c st))
    else (Raised (Registry (AttributeError "__boundcommand__")),
          indexed f c st).
Proof.
  intros c. unfold cli_command, real_decorator.
  rewrite lookup_empty. simpl. unfold wrapper. simpl.
  unfold command_call.
  rewrite bind_call_no_keywords by (simpl; lia). simpl.
  unfold register_call. simpl. unfold from_registry.
  destruct (takes_attributes f) eqn:Hf.
  - rewrite register_root by exact Hf. reflexivity.
  - rewrite register_sealed by exact Hf. reflexivity.
Qed.

Lemma bind_call_unknown params pos kw k v :
  kw !! k = Some v → k ∉ params → bind_call params pos kw = None.
Proof.
  intros Hk Hno. unfold bind_call. case_decide; [reflexivity|].
  rewrite decide_False; [reflexivity|].
  intros Hall. apply Hno. apply (subseteq_drop (length pos)).
  exact (Hall k v Hk).
Qed.

Lemma register_name_empty d parent als lc cs a :
  _register_command d parent als (Some EmptyString) lc cs a
  = _register_command d parent als None lc cs a.
Proof. reflexivity. Qed.

(** The decorator called with keywords only registers nothing: it gives
    back a closure, and the closure applied to an object registers the
    object as a root command with the options of the call and returns the
    object; applied to an object that takes no attributes it raises where
    the registration does. *)
Theorem command_with_keywords (als : list string) (nm : string)
    (lc cs : bool) (f : Descriptor) (st : CLI) :
  let kw : gmap string pyarg :=
    <["aliases" := AStrs als]> (<["name" := AStr nm]>
      (<["lowercase" := ABool lc]> (<["case_sensitive" := ABool cs]> ∅))) in
  ∃ w, cli_command [] kw st = (Returned (DWrapper w), st) ∧
       wrapper w (AObj f) st
       = (if takes_attributes f then Returned (VDescriptor f)
          else Raised (Registry (AttributeError "__boundcommand__")),
          snd (_register_command f None (Some als) (Some nm) lc cs
                 (signature f) st)).
Proof.
  intros kw.
  assert (Hcli : kw !! "cli" = None) by (subst kw; now simplify_map_eq).
  assert (H1 : kw !! "aliases" = Some (AStrs als))
    by (subst kw; now simplify_map_eq).
  assert (H2 : kw !! "name" = Some (AStr nm))
    by (subst kw; now simplify_map_eq).
  assert (H3 : kw !! "lowercase" = Some (ABool lc))
    by (subst kw; now simplify_map_eq).
  assert (H4 : kw !! "case_sensitive" = Some (ABool cs))
    by (subst kw; now simplify_map_eq).
  assert (H5 : kw !! "args" = None) by (subst kw; now simplify_map_eq).
  assert (Hall : map_Forall
            (λ k _, k ∈ drop 1 ["command_like"; "aliases"; "name";
                                "lowercase"; "case_sensitive"; "args"]) kw).
  { subst kw. simpl.
    repeat (apply map_Forall_insert_2; [set_solver|]).
    apply map_Forall_empty. }
  clearbody kw. eexists. split.
  - unfold cli_command, real_decorator. rewrite Hcli. reflexivity.
  - unfold wrapper. cbn [w_outer w_no_wrap w_executed w_args w_kwargs app].
    unfold command_call, bind_call.
    rewrite decide_False by (simpl; lia).
    rewrite decide_True by exact Hall.
    simpl. rewrite H1, H2, H3, H4, H5. simpl.
    unfold register_call. simpl.
    destruct (takes_attributes f) eqn:Hf;
      destruct nm as [|ch nm]; simpl; unfold from_registry;
      rewrite ?register_name_empty;
      first [rewrite register_root by exact Hf
            |rewrite register_sealed by exact Hf]; reflexivity.
Qed.

(** [cli.subcommand(parent)], with a parent that is an object or a name
    that is not empty, registers nothing: it gives back a closure, and the
    closure applied to an object registers the object under that parent.
    The decorator used bare, [@cli.subcommand] above a function, is this
    call with the function in the place of the parent: the function is
    not registered and its name is bound to the closure. *)
Theorem subcommand_with_parent (e : pyarg) (id : Identifier)
    (f : Descriptor) (st : CLI) :
  truthy e = true → typed_parent e = Some (Some id) →
  ∃ w, cli_subcommand [e] ∅ st = (Returned (DWrapper w), st) ∧
       wrapper w (AObj f) st
       = from_registry
           (_register_command f (Some id) None None true true (signature f))
           st.
Proof.
  intros Ht Hp. eexists. split.
  - unfold cli_subcommand, real_decorator. rewrite lookup_empty.
    rewrite andb_false_r. reflexivity.
  - unfold wrapper. simpl. rewrite Ht. simpl.
    unfold subcommand_call.
    rewrite bind_call_no_keywords by (simpl; lia). simpl.
    destruct e; try discriminate; simpl in *;
      injection Hp as <-; reflexivity.
Qed.

(** Without a parent, or with one that is falsy (the empty string,
    [None], an empty list), the closure of [cli.subcommand] raises the
    [ValueError] for a missing parent and registers nothing: a falsy first
    argument is dropped on the way. *)
Theorem subcommand_without_parent (pos : list pyarg) (f : pyarg) (st : CLI) :
  pos = [] ∨ (∃ e, pos = [e] ∧ truthy e = false) →
  ∃ w, cli_subcommand pos ∅ st = (Returned (DWrapper w), st) ∧
       wrapper w f st
       = (Raised (Registry (ValueError "parent cannot be None")), st).
Proof.
  intros Hpos.
  assert (Hbind : subcommand_call [f] ∅ st
            = (Raised (Registry (ValueError "parent cannot be None")), st)).
  { unfold subcommand_call.
    rewrite bind_call_no_keywords by (simpl; lia). reflexivity. }
  eexists. split.
  - unfold cli_subcommand, real_decorator. rewrite lookup_empty.
    rewrite andb_false_r. reflexivity.
  - unfold wrapper. simpl.
    destruct Hpos as [->|(e & -> & He)]; simpl; [exact Hbind|].
    rewrite He. exact Hbind.
Qed.

(** A keyword that is no parameter of [command] — [parent], say — makes
    the call a [TypeError], at once or when the closure is applied, and
    nothing is registered. *)
Theorem command_unknown_keyword (pos : list pyarg) (kw : gmap string pyarg)
    (k : string) (v f : pyarg) (st : CLI) :
  kw !! k = Some v →
  k ∉ ["command_like"; "aliases"; "name"; "lowercase"; "case_sensitive";
       "args"] →
  cli_command pos kw st = (Raised TypeError, st) ∨
  ∃ w, cli_command pos kw st = (Returned (DWrapper w), st) ∧
       wrapper w f st = (Raised TypeError, st).
Proof.
  intros Hk Hno. unfold cli_command, real_decorator.
  destruct (kw !! "cli"); [now left|].
  destruct (truthy _ && true) eqn:Hex.
  - left. unfold wrapper. simpl. unfold command_call.
    now rewrite (bind_call_unknown _ _ _ _ _ Hk Hno).
  - right. eexists. split; [reflexivity|].
    unfold wrapper. simpl. unfold command_call.
    now rewrite (bind_call_unknown _ _ _ _ _ Hk Hno).
Qed.

Lemma find_subcommand_no_raise fuel h self id e :
  find_subcommand fuel h self id ≠ Raise e.
Proof.
  revert self. induction fuel as [|fuel IH]; intros self; simpl;
    [discriminate|].
  destruct (h !! self) as [c|]; [|discriminate].
  destruct (__subcommands__ c) as [|sub rest]; [discriminate|].
  destruct (h !! sub) as [sc|]; [|discriminate].
  destruct (hits id sc); [discriminate | apply IH].
Qed.

Lemma find_command_loop_no_raise fuel h l id e :
  find_command_loop fuel h l id ≠ Raise e.
Proof.
  induction l as [|n l IH]; simpl; [discriminate|].
  destruct (h !! n) as [c|]; [|discriminate].
  destruct (hits id c); [discriminate|].
  destruct (find_subcommand fuel h n id) as [[m|]|e'| |] eqn:Hf;
    try discriminate; [exact IH|].
  now apply find_subcommand_no_raise in Hf.
Qed.

(** A registration that raises: where, and in which state. *)
Lemma register_raises d parent als nm lc cs a st e st' :
  _register_command d parent als nm lc cs a st = (Raise e, st') →
  (takes_attributes d = false ∧ e = AttributeError "__boundcommand__" ∧
   st' = indexed d (new_command d als nm lc cs a) st) ∨
  (takes_attributes d = true ∧ parent ≠ None ∧
   e = ValueError "Parent not found" ∧
   st' = recorded d (new_command d als nm lc cs a) st).
Proof.
  intros E. destruct (takes_attributes d) eqn:Hd.
  - right. destruct parent as [p|];
      [|rewrite register_root in E by exact Hd; discriminate].
    rewrite register_under in E by exact Hd.
    unfold bind, lift, raise in E.
    destruct (find_command _ p) as [[cp|]|e'| |] eqn:Hf; simpl in E;
      try discriminate.
    + unfold add_subcommand, bind, update in E. simpl in E.
      destruct (_ !! cp) as [pc|]; simpl in E; [|discriminate].
      destruct (_ !! length (heap st)) as [c2|]; simpl in E; discriminate.
    + injection E as <- <-. repeat split; auto.
    + now apply find_command_loop_no_raise in Hf.
  - left. rewrite register_sealed in E by exact Hd.
    injection E as <- <-. auto.
Qed.

Lemma register_call_failure cl parent als nm lc cs ar st e st' :
  register_call cl parent als nm lc cs ar st = (Raised e, st') →
  failure st e st' ∧
  (parent = Some None → ∀ msg, e ≠ Registry (ValueError msg)).
Proof.
  unfold register_call.
  destruct (negb (truthy nm) && _);
    [intros [= <- <-]; split; [constructor | discriminate]|].
  assert (Hreg : ∀ d p a n x,
    from_registry (_register_command d p a n (truthy lc) (truthy cs) x) st
      = (Raised e, st') →
    failure st e st' ∧ (p = None → ∀ msg, e ≠ Registry (ValueError msg))).
  { intros d p a n x. unfold from_registry.
    destruct (_register_command d p a n (truthy lc) (truthy cs) x st)
      as [[v|e0| |] st1] eqn:E; try discriminate.
    intros [= <- <-].
    apply register_raises in E as [(Hd & -> & ->)|(Hd & Hp & -> & ->)].
    - split; [now constructor | discriminate].
    - split; [now constructor | contradiction]. }
  destruct als;
    try (intros [= <- <-]; split; [constructor | discriminate]);
    destruct cl; try discriminate;
    destruct parent as [parent|]; try discriminate;
    destruct (typed_aliases _); try discriminate;
    destruct (typed_name nm); try discriminate;
    destruct (typed_args signature given_args ar); try discriminate;
    intros E; destruct (Hreg _ _ _ _ _ E) as [Hf Hno];
    (split; [exact Hf|]); intros [= ->]; now apply Hno.
Qed.

Lemma command_call_failure pos kw st e st' :
  command_call pos kw st = (Raised e, st') →
  failure st e st' ∧ ∀ msg, e ≠ Registry (ValueError msg).
Proof.
  assert (Hty : (@Raised pyval TypeError, st) = (Raised e, st') →
            failure st e st' ∧ ∀ msg, e ≠ Registry (ValueError msg)).
  { intros [= <- <-]. split; [constructor | discriminate]. }
  unfold command_call.
  destruct (bind_call _ pos kw) as [l|]; [|exact Hty].
  do 6 (destruct l as [|? l]; [try exact Hty; try (destruct o; exact Hty)|]).
  destruct o; [|exact Hty].
  destruct l; [|exact Hty].
  intros E. apply register_call_failure in E as [Hf Hno]. auto.
Qed.

Lemma subcommand_call_failure pos kw st e st' :
  subcommand_call pos kw st = (Raised e, st') → failure st e st'.
Proof.
  assert (Hty : (@Raised pyval TypeError, st) = (Raised e, st') →
            failure st e st').
  { intros [= <- <-]. constructor. }
  unfold subcommand_call.
  destruct (bind_call _ pos kw) as [l|]; [|exact Hty].
  do 7 (destruct l as [|? l]; [try exact Hty; try (destruct o; exact Hty)|]).
  destruct o; [|exact Hty].
  destruct l; [|exact Hty].
  destruct (or_default ANone o0);
    try (intros E; now apply register_call_failure in E as [Hf _]).
  intros [= <- <-]. constructor.
Qed.

(** The exceptions of the decorators and what each leaves behind.  A call
    that gives back a closure has changed nothing.  A call that raises, at
    the first stage or when the closure is applied, raises one of five
    exceptions: the [TypeError] of a call that cannot be bound or of
    aliases that cannot be listed, the [AttributeError] of a missing
    [__name__] and the [ValueError] of a missing parent, which leave the
    state as it was; the [AttributeError] of [__boundcommand__], which
    leaves the new object in the index; and "Parent not found", which
    leaves it in the index and in [__boundcommand__].  [cli.command]
    raises no [ValueError] at all. *)
Theorem decorator_failures (pos : list pyarg) (kw : gmap string pyarg)
    (st : CLI) :
  (∀ e st', cli_command pos kw st = (Raised e, st') →
     failure st e st' ∧ ∀ msg, e ≠ Registry (ValueError msg)) ∧
  (∀ w st', cli_command pos kw st = (Returned (DWrapper w), st') →
     st' = st ∧
     ∀ f s e s', wrapper w f s = (Raised e, s') →
       failure s e s' ∧ ∀ msg, e ≠ Registry (ValueError msg)) ∧
  (∀ e st', cli_subcommand pos kw st = (Raised e, st') →
     e = TypeError ∧ st' = st) ∧
  (∀ w st', cli_subcommand pos kw st = (Returned (DWrapper w), st') →
     st' = st ∧
     ∀ f s e s', wrapper w f s = (Raised e, s') → failure s e s').
Proof.
  unfold cli_command, cli_subcommand, real_decorator.
  destruct (kw !! "cli").
  { split; [|split; [|split]].
    - intros e st' [= <- <-]. split; [constructor | discriminate].
    - discriminate.
    - intros e st' [= <- <-]. auto.
    - discriminate. }
  rewrite andb_false_r. split; [|split; [|split]].
  - intros e st'. destruct (truthy _ && true); [|discriminate].
    destruct (wrapper _ _ st) as [[v|e0| |] s1] eqn:E; try discriminate.
    intros [= <- <-]. unfold wrapper in E. simpl in E.
    now apply command_call_failure in E.
  - intros w st'. destruct (truthy _ && true).
    + destruct (wrapper _ _ st) as [[v|e0| |] s1]; discriminate.
    + intros [= <- <-]. split; [reflexivity|].
      intros f s e s'. unfold wrapper. simpl. apply command_call_failure.
  - discriminate.
  - intros w st' [= <- <-]. split; [reflexivity|].
    intros f s e s'. unfold wrapper. simpl. apply subcommand_call_failure.
Qed.

End DecoratorFacts.

(** The handlers of the examples declare no parameters, and a list of
    [Arg] that is given is taken as it is. *)
Lemma subcommand_with_parent_witness :
  ∃ w, cli_subcommand (λ _, []) (λ _ l, l) [AObj d_math] ∅ cli_math
       = (Returned (DWrapper w), cli_math) ∧
       wrapper w (AObj d_add) cli_math
       = (Returned (VDescriptor d_add), cli_math_add).
Proof.
  destruct (subcommand_with_parent (λ _, []) (λ _ l, l) (AObj d_math)
              (ByObject d_math) d_add cli_math eq_refl eq_refl)
    as (w & H1 & H2).
  exists w. split; [exact H1|]. rewrite H2. reflexivity.
Defined.

Lemma subcommand_without_parent_witness :
  ∃ w, cli_subcommand (λ _, []) (λ _ l, l) [AStr EmptyString] ∅ cli_math
       = (Returned (DWrapper w), cli_math) ∧
       wrapper w (AObj d_add) cli_math
       = (Raised (Registry (ValueError "parent cannot be None")), cli_math).
Proof.
  apply (subcommand_without_parent (λ _, []) (λ _ l, l) [AStr EmptyString]
           (AObj d_add) cli_math).
  right. exists (AStr EmptyString). split; reflexivity.
Defined.

Lemma command_unknown_keyword_witness :
  cli_command (λ _, []) (λ _ l, l) [] {["parent" := AObj d_math]} cli_math
    = (Raised TypeError, cli_math) ∨
  ∃ w, cli_command (λ _, []) (λ _ l, l) [] {["parent" := AObj d_math]}
         cli_math
       = (Returned (DWrapper w), cli_math) ∧
       wrapper w (AObj d_add) cli_math = (Raised TypeError, cli_math).
Proof.
  apply (command_unknown_keyword (λ _, []) (λ _ l, l) []
           {["parent" := AObj d_math]}
           "parent" (AObj d_math) (AObj d_add) cli_math).
  - apply lookup_singleton_eq.
  - intros H. repeat (apply elem_of_cons in H as [H|H]; [discriminate|]).
    inversion H.
Defined.

(** [cli.command(obj.run)] on a bound method, and [cli.subcommand("nomatch")]
    above [add]. *)
Lemma decorator_failures_witness :
  failure cli_math (Registry (AttributeError "__boundcommand__"))
    (indexed d_run (new_command d_run None None true true []) cli_math) ∧
  ∃ w, cli_subcommand (λ _, []) (λ _ l, l) [AStr "nomatch"] ∅ cli_math
       = (Returned (DWrapper w), cli_math) ∧
       failure cli_math (Registry (ValueError "Parent not found"))
         (recorded d_add (new_command d_add None None true true []) cli_math).
Proof.
  split.
  - destruct (decorator_failures (λ _, []) (λ _ l, l) [AObj d_run] ∅ cli_math)
      as (H & _).
    apply H. unfold cli_command, real_decorator.
    rewrite lookup_empty. simpl. unfold wrapper. simpl. unfold command_call.
    rewrite bind_call_no_keywords by (simpl; lia). reflexivity.
  - destruct (decorator_failures (λ _, []) (λ _ l, l) [AStr "nomatch"] ∅
                cli_math) as (_ & _ & _ & H).
    eexists. split.
    + unfold cli_subcommand, real_decorator. rewrite lookup_empty.
      reflexivity.
    + eapply H; [unfold cli_subcommand, real_decorator; rewrite lookup_empty;
                 reflexivity|].
      instantiate (1 := AObj d_add).
      unfold wrapper. simpl. unfold subcommand_call.
      rewrite bind_call_no_keywords by (simpl; lia). reflexivity.
Defined.

(** ** [CLI.identity] *)

Section Identity.

Lemma split_on_cons sep s : ∃ x xs, split_on sep s = x :: xs.
Proof.
  induction s as [|c s (x & xs & IH)]; simpl; [eauto|].
  destruct (Ascii.eqb c sep); [eauto|]. rewrite IH. eauto.
Qed.

Lemma split_on_no_dot s : no_dot s = true → split_on "." s = [s].
Proof.
  induction s as [|c s IH]; simpl; [reflexivity|].
  intros [Hc Hs]%andb_true_iff. apply negb_true_iff in Hc.
  now rewrite Hc, (IH Hs).
Qed.

Lemma split_on_dot s :
  no_dot s = false → 2 ≤ length (split_on "." s).
Proof.
  induction s as [|c s IH]; simpl; [discriminate|].
  destruct (Ascii.eqb c ".") eqn:Hc; simpl.
  - intros _. destruct (split_on_cons "." s) as (x & xs & ->). simpl. lia.
  - intros Hs. specialize (IH Hs).
    destruct (split_on "." s) as [|x xs]; simpl in *; lia.
Qed.

Lemma split_on_app sep a b :
  split_on sep (a ++ String sep b) = (split_on sep a ++ split_on sep b)%list.
Proof.
  induction a as [|c a IH].
  - change (EmptyString ++ String sep b)%string with (String sep b).
    simpl. now rewrite Ascii.eqb_refl.
  - change (String c a ++ String sep b)%string
      with (String c (a ++ String sep b)).
    simpl. rewrite IH. destruct (Ascii.eqb c sep); [reflexivity|].
    destruct (split_on_cons sep a) as (x & xs & ->). reflexivity.
Qed.

(** [identity] takes the class from the qualified name of the method: the
    item before the last dot.  A name without a dot, that of a function at
    top level, has no such item and the decorator raises [IndexError];
    for [C.m], and for [q.C.m] whatever [q] is, the closure looks up
    [C]. *)
Theorem identity_parent_class_spec :
  (∀ q, identity_parent_class q = None ↔ no_dot q = true) ∧
  (∀ C m, no_dot C = true → no_dot m = true →
     identity_parent_class (C ++ "." ++ m) = Some C) ∧
  (∀ q C m, no_dot C = true → no_dot m = true →
     identity_parent_class (q ++ "." ++ C ++ "." ++ m) = Some C).
Proof.
  unfold identity_parent_class. split; [|split].
  - intros q. rewrite lookup_ge_None, length_rev. split.
    + intros Hlen. destruct (no_dot q) eqn:Hq; [reflexivity|].
      apply split_on_dot in Hq. lia.
    + intros Hq. rewrite (split_on_no_dot q Hq). simpl. lia.
  - intros C m HC Hm.
    change (C ++ "." ++ m)%string with (C ++ String "." m)%string.
    rewrite split_on_app, (split_on_no_dot C HC), (split_on_no_dot m Hm).
    reflexivity.
  - intros q C m HC Hm.
    change (q ++ "." ++ C ++ "." ++ m)%string
      with (q ++ String "." (C ++ String "." m))%string.
    rewrite !split_on_app, (split_on_no_dot C HC), (split_on_no_dot m Hm).
    rewrite !rev_app_distr. reflexivity.
Qed.

(** The closure of [identity] searches when it is called, not when the
    method is decorated: from the moment a root command answers to the
    name of the class, the closure returns a command of the forest that
    answers to it. *)
Theorem identity_finds_class (st : CLI) (C m : string) (r : nat)
    (c : Command) :
  well_formed st → no_dot C = true → no_dot m = true →
  r ∈ _commands st → heap st !! r = Some c → matches c C = true →
  ∃ pc n cn, identity_parent_class (C ++ "." ++ m) = Some pc ∧
             identity_wrapper pc st = Ok (Some n) ∧
             reachable (heap st) (_commands st) n ∧
             heap st !! n = Some cn ∧ matches cn C = true.
Proof.
  intros Hwf HC Hm Hr Hc Hmatch. exists C.
  destruct (find_command_hits_root st (ByName C) r c Hwf Hr Hc Hmatch)
    as (n & cn & Hf & Hreach & Hcn & Hhit).
  exists n, cn. repeat split; auto.
  unfold identity_parent_class.
  change (C ++ "." ++ m)%string with (C ++ String "." m)%string.
  rewrite split_on_app, (split_on_no_dot C HC), (split_on_no_dot m Hm).
  reflexivity.
Qed.

End Identity.

Lemma identity_parent_class_spec_witness :
  identity_parent_class "ping" = None ∧
  identity_parent_class ("Math" ++ "." ++ "get") = Some "Math" ∧
  identity_parent_class ("outer.<locals>" ++ "." ++ "Math" ++ "." ++ "get")
    = Some "Math".
Proof.
  destruct identity_parent_class_spec as (H1 & H2 & H3).
  split; [|split].
  - apply H1. reflexivity.
  - apply H2; reflexivity.
  - apply H3; reflexivity.
Defined.

Lemma identity_finds_class_witness :
  ∃ pc n cn, identity_parent_class ("Math" ++ "." ++ "get") = Some pc ∧
             identity_wrapper pc cli_math_add = Ok (Some n) ∧
             reachable (heap cli_math_add) (_commands cli_math_add) n ∧
             heap cli_math_add !! n = Some cn ∧ matches cn "Math" = true.
Proof.
  apply (identity_finds_class cli_math_add "Math" "get" 0
           (set_subcommands [1] (new_command d_math None None true true []))).
  - repeat apply well_formed_register. apply well_formed_init.
  - reflexivity.
  - reflexivity.
  - left.
  - reflexivity.
  - reflexivity.
Defined.
